(** * Event Hubs client: send tracking, receive flow control, start-up,
      partition pump and offset selectors

    A shallow embedding of the handlers of
    - [eventhubs/_impl.py]            (module [Sender]),
    - [eventhubs/async/__init__.py]   (module [Receiver]),
    - [azure/eventhub/_async/__init__.py] (module [Client]),
    - [eventhubsprocessor/eh_partition_pump.py] (module [Pump]),
    - [eventhubs/__init__.py], [Offset.selector] (module [OffsetFilter]).

    Reactor callbacks are state transformers; what a callback does to the
    protocol engine or to user code (callbacks fired, credit granted, timers
    scheduled) is appended to a log carried by the state. *)

From Stdlib Require Import List ZArith Lia Bool String Ascii Arith PeanoNat.
From Stdlib Require Import Uint63 PrimFloat FloatOps SpecFloat DecimalString.
From Stdlib Require DecimalNat.
Import ListNotations.

Set Implicit Arguments.

(* ===================================================================== *)
(** * Sender side: [SenderHandler] and its [DeliveryTracker]             *)
(* ===================================================================== *)
Module Sender.

(** proton's [Delivery] states, the outcomes handed to a completion. *)
Inductive DeliveryState := RECEIVED | ACCEPTED | REJECTED | RELEASED | MODIFIED.

(** proton's [Condition(name, description)]. *)
Record Condition := { cond_name : string; cond_description : string }.

(** [SenderHandler.TIMEOUT = 60.0]; clock readings are whole seconds. *)
Definition TIMEOUT : Z := 60.

(** [SenderHandler.DeliveryEvent]: the delivery record.  [rid] stands for the
    identity of the Python object; the callback is observed through the
    completion log of the handler. *)
Record DeliveryEvent := {
  rid : nat;
  message : nat;
  state : nat;
  start : Z
}.

(** [DeliveryEvent.elapsed], with [time.time()] passed in. *)
Definition elapsed (now : Z) (e : DeliveryEvent) : Z := (now - start e)%Z.

(** One call [callback(state, outcome, condition)]. *)
Record Completion := {
  c_rid : nat;
  c_state : nat;
  c_outcome : DeliveryState;
  c_condition : option Condition
}.

(** [DeliveryEvent.complete]. *)
Definition complete (e : DeliveryEvent) (outcome : DeliveryState)
  (condition : option Condition) : Completion :=
  {| c_rid := rid e; c_state := state e; c_outcome := outcome;
     c_condition := condition |}.

(** The engine's link: its name carries the iteration it was made in; the
    broker grants [credit] and every transfer uses one up. *)
Record Link := { link_iteration : nat; credit : nat }.

(** Calls into the protocol engine that the handler makes. *)
Inductive Effect :=
| Trigger (r : nat)            (* client.injector.trigger(event) *)
| TrackerSchedule              (* container.schedule(TIMEOUT, tracker) *)
| TrackerCancel                (* task.cancel() *)
| Settle (tag : nat)           (* dlv.settle() *)
| UpdateReleased (tag : nat)   (* dlv.update(Delivery.RELEASED) *)
| LinkClose (it : nat)         (* link.close(); link.free() *)
| ConnectionClose              (* connection.close() *)
| ScheduleRestart.             (* event.reactor.schedule(1.0, self) *)

(** [self.deliveries]: a dict keyed by the engine's delivery, kept in
    insertion order as Python iterates it. *)
Definition Deliveries := list (nat * DeliveryEvent).

Record SenderHandler := {
  link : option Link;
  iteration : nat;
  queue : list DeliveryEvent;          (* Queue.Queue, FIFO *)
  deliveries : Deliveries;
  tracker_task : bool;                 (* tracker.task is not None *)
  client_stopped : bool;               (* self.client.stopped *)
  remote_container : string;           (* self.client.remote_container *)
  next_rid : nat;                      (* next fresh DeliveryEvent object *)
  next_tag : nat;                      (* next delivery made by the link *)
  completions : list Completion;       (* callbacks fired, oldest first *)
  effects : list Effect                (* engine calls, oldest first *)
}.

(** [SenderHandler.__init__]. *)
Definition init (container : string) : SenderHandler :=
  {| link := None; iteration := 0; queue := []; deliveries := [];
     tracker_task := false; client_stopped := false;
     remote_container := container; next_rid := 0; next_tag := 0;
     completions := []; effects := [] |}.

Definition fatal_conditions : list string :=
  ["amqp:unauthorized-access"; "amqp:not-found"]%string.

(** [d[k] = v] on an insertion-ordered dict. *)
Fixpoint dict_set (k : nat) (v : DeliveryEvent) (d : Deliveries) : Deliveries :=
  match d with
  | [] => [(k, v)]
  | (k', v') :: d' =>
      if Nat.eqb k' k then (k, v) :: d' else (k', v') :: dict_set k v d'
  end.

(** [d.pop(k, None)]: the value under [k], if any, and the dict without it. *)
Fixpoint dict_pop (k : nat) (d : Deliveries) : option DeliveryEvent * Deliveries :=
  match d with
  | [] => (None, [])
  | (k', v') :: d' =>
      if Nat.eqb k' k then (Some v', d')
      else let '(r, d'') := dict_pop k d' in (r, (k', v') :: d'')
  end.

(** [SenderHandler.send]: a new record goes on the pending queue and the
    injector is triggered; nothing is handed to the link here. *)
Definition send (msg st : nat) (now : Z) (s : SenderHandler) : SenderHandler :=
  let event := {| rid := next_rid s; message := msg; state := st; start := now |} in
  {| link := link s; iteration := iteration s;
     queue := queue s ++ [event]; deliveries := deliveries s;
     tracker_task := tracker_task s; client_stopped := client_stopped s;
     remote_container := remote_container s;
     next_rid := S (next_rid s); next_tag := next_tag s;
     completions := completions s;
     effects := effects s ++ [Trigger (next_rid s)] |}.

(** The [while] loop of [on_sendable]: as long as the link has credit and the
    queue is not empty, transfer the head of the queue and file it under the
    delivery the link returns. *)
Fixpoint on_sendable_loop (cr : nat) (q : list DeliveryEvent) (d : Deliveries)
  (tag : nat) {struct q} : nat * list DeliveryEvent * Deliveries * nat :=
  match cr, q with
  | S cr', e :: q' => on_sendable_loop cr' q' (dict_set tag e d) (S tag)
  | _, _ => (cr, q, d, tag)
  end.

(** [DeliveryTracker.track], as a change of (task, effects). *)
Definition track (task : bool) (eff : list Effect) : bool * list Effect :=
  if task then (task, eff) else (true, eff ++ [TrackerSchedule]).

(** [DeliveryTracker.stop]. *)
Definition tracker_stop (task : bool) (eff : list Effect) : bool * list Effect :=
  if task then (false, eff ++ [TrackerCancel]) else (task, eff).

(** [SenderHandler.on_sendable]. *)
Definition on_sendable (s : SenderHandler) : SenderHandler :=
  let '(lk, q, d, tag) :=
    match link s with
    | Some l =>
        let '(cr, q, d, tag) :=
          on_sendable_loop (credit l) (queue s) (deliveries s) (next_tag s) in
        (Some {| link_iteration := link_iteration l; credit := cr |}, q, d, tag)
    | None => (None, queue s, deliveries s, next_tag s)
    end in
  let '(task, eff) :=
    match d with
    | [] => (tracker_task s, effects s)
    | _ :: _ => track (tracker_task s) (effects s)
    end in
  {| link := lk; iteration := iteration s; queue := q; deliveries := d;
     tracker_task := task; client_stopped := client_stopped s;
     remote_container := remote_container s;
     next_rid := next_rid s; next_tag := tag;
     completions := completions s; effects := eff |}.

(** [SenderHandler.on_delivery] for the engine's delivery [dlv], whose
    [updated] flag, remote state and remote condition come with the event. *)
Definition on_delivery (dlv : nat) (updated : bool) (remote_state : DeliveryState)
  (remote_condition : option Condition) (s : SenderHandler) : SenderHandler :=
  if updated then
    let '(found, d) := dict_pop dlv (deliveries s) in
    {| link := link s; iteration := iteration s; queue := queue s;
       deliveries := d;
       tracker_task := tracker_task s; client_stopped := client_stopped s;
       remote_container := remote_container s;
       next_rid := next_rid s; next_tag := next_tag s;
       completions :=
         match found with
         | Some e => completions s ++ [complete e remote_state remote_condition]
         | None => completions s
         end;
       effects := effects s ++ [Settle dlv] |}
  else s.

(** The condition [check_timeout] completes an overdue record with. *)
Definition timeout_condition (ref : string) : Condition :=
  {| cond_name := "timeout";
     cond_description := "Send not complete after 60 seconds. ref " ++ ref |}.

(** First loop of [check_timeout]: the deliveries whose record is overdue. *)
Definition expired_keys (now : Z) (d : Deliveries) : list nat :=
  map fst (filter (fun kv => (TIMEOUT <=? elapsed now (snd kv))%Z) d).

(** Second loop of [check_timeout]: pop each expired delivery, release and
    settle it, and complete its record with the timeout condition.  A key that
    is gone is Python's [KeyError]; it cannot come up for keys just read off
    the dict, and the loop stops there. *)
Fixpoint expire (keys : list nat) (ref : string) (d : Deliveries)
  (cs : list Completion) (eff : list Effect)
  : Deliveries * list Completion * list Effect :=
  match keys with
  | [] => (d, cs, eff)
  | dlv :: rest =>
      match dict_pop dlv d with
      | (Some e, d') =>
          expire rest ref d'
            (cs ++ [complete e RELEASED (Some (timeout_condition ref))])
            (eff ++ [UpdateReleased dlv; Settle dlv])
      | (None, _) => (d, cs, eff)
      end
  end.

(** [SenderHandler.check_timeout], ending in the forced flush. *)
Definition check_timeout (now : Z) (s : SenderHandler) : SenderHandler :=
  let '(d, cs, eff) :=
    expire (expired_keys now (deliveries s)) (remote_container s)
      (deliveries s) (completions s) (effects s) in
  on_sendable
    {| link := link s; iteration := iteration s; queue := queue s;
       deliveries := d;
       tracker_task := tracker_task s; client_stopped := client_stopped s;
       remote_container := remote_container s;
       next_rid := next_rid s; next_tag := next_tag s;
       completions := cs; effects := eff |}.

(** [DeliveryTracker.on_timer_task]: the timer fires only while a task is
    scheduled; it clears the task and checks the deadlines. *)
Definition tracker_on_timer_task (now : Z) (s : SenderHandler) : SenderHandler :=
  if tracker_task s then
    check_timeout now
      {| link := link s; iteration := iteration s; queue := queue s;
         deliveries := deliveries s;
         tracker_task := false; client_stopped := client_stopped s;
         remote_container := remote_container s;
         next_rid := next_rid s; next_tag := next_tag s;
         completions := completions s; effects := effects s |}
  else s.

(** [SenderHandler.on_link_closed]: every delivery on the dict is completed
    as released, the dict is cleared, the tracker stopped.  [self.queue] is
    not mentioned by the method. *)
Definition on_link_closed (condition : option Condition) (s : SenderHandler)
  : SenderHandler :=
  let '(task, eff) := tracker_stop (tracker_task s) (effects s) in
  {| link := link s; iteration := iteration s; queue := queue s;
     deliveries := [];
     tracker_task := task; client_stopped := client_stopped s;
     remote_container := remote_container s;
     next_rid := next_rid s; next_tag := next_tag s;
     completions :=
       completions s
       ++ map (fun kv => complete (snd kv) RELEASED condition) (deliveries s);
     effects := eff |}.

(** [SenderHandler.on_stop]. *)
Definition on_stop (condition : option Condition) (s : SenderHandler)
  : SenderHandler := on_link_closed condition s.

(** [ClientHandler.stop]: [on_stop], then the link is closed and dropped. *)
Definition stop (condition : option Condition) (s : SenderHandler)
  : SenderHandler :=
  let s1 := on_stop condition s in
  match link s1 with
  | Some l =>
      {| link := None; iteration := iteration s1; queue := queue s1;
         deliveries := deliveries s1;
         tracker_task := tracker_task s1; client_stopped := client_stopped s1;
         remote_container := remote_container s1;
         next_rid := next_rid s1; next_tag := next_tag s1;
         completions := completions s1;
         effects := effects s1 ++ [LinkClose (link_iteration l)] |}
  | None => s1
  end.

(** [ClientHandler.start] with [SenderHandler.on_start]: the iteration goes
    up and a new link, without credit yet, replaces the old one. *)
Definition start_handler (s : SenderHandler) : SenderHandler :=
  {| link := Some {| link_iteration := S (iteration s); credit := 0 |};
     iteration := S (iteration s); queue := queue s;
     deliveries := deliveries s;
     tracker_task := tracker_task s; client_stopped := client_stopped s;
     remote_container := remote_container s;
     next_rid := next_rid s; next_tag := next_tag s;
     completions := completions s; effects := effects s |}.

(** The broker grants [n] more credit on the current link. *)
Definition grant_credit (n : nat) (s : SenderHandler) : SenderHandler :=
  match link s with
  | Some l =>
      {| link := Some {| link_iteration := link_iteration l; credit := credit l + n |};
         iteration := iteration s; queue := queue s;
         deliveries := deliveries s;
         tracker_task := tracker_task s; client_stopped := client_stopped s;
         remote_container := remote_container s;
         next_rid := next_rid s; next_tag := next_tag s;
         completions := completions s; effects := effects s |}
  | None => s
  end.

Definition is_fatal (condition : option Condition) : bool :=
  match condition with
  | Some c => existsb (String.eqb (cond_name c)) fatal_conditions
  | None => false
  end.

(** [ClientHandler.on_link_remote_close] for the link made in iteration
    [it]; [local_closed] is [EndpointStateHandler.is_local_closed(link)]. *)
Definition on_link_remote_close (it : nat) (local_closed : bool)
  (condition : option Condition) (s : SenderHandler) : SenderHandler :=
  if local_closed then s
  else
    let s1 :=
      on_link_closed condition
        {| link := link s; iteration := iteration s; queue := queue s;
           deliveries := deliveries s;
           tracker_task := tracker_task s; client_stopped := client_stopped s;
           remote_container := remote_container s;
           next_rid := next_rid s; next_tag := next_tag s;
           completions := completions s;
           effects := effects s ++ [LinkClose it] |} in
    let is_current :=
      match link s1 with
      | Some l => Nat.eqb (link_iteration l) it
      | None => false
      end in
    {| link := if is_fatal condition then link s1
               else if is_current then None else link s1;
       iteration := iteration s1; queue := queue s1;
       deliveries := deliveries s1;
       tracker_task := tracker_task s1; client_stopped := client_stopped s1;
       remote_container := remote_container s1;
       next_rid := next_rid s1; next_tag := next_tag s1;
       completions := completions s1;
       effects :=
         effects s1
         ++ (if is_fatal condition then [ConnectionClose]
             else if is_current then [ScheduleRestart] else []) |}.

(** [ClientHandler.on_timer_task]: restart when the link is gone and the
    client has not been stopped. *)
Definition on_timer_task (s : SenderHandler) : SenderHandler :=
  match link s with
  | None => if client_stopped s then s else start_handler s
  | Some _ => s
  end.

(** [EventHubClient.on_stop_client] as this handler sees it: the client is
    marked stopped and the handler stopped without a condition. *)
Definition on_stop_client (s : SenderHandler) : SenderHandler :=
  stop None
    {| link := link s; iteration := iteration s; queue := queue s;
       deliveries := deliveries s;
       tracker_task := tracker_task s; client_stopped := true;
       remote_container := remote_container s;
       next_rid := next_rid s; next_tag := next_tag s;
       completions := completions s; effects := effects s |}.

(** What can happen to a sender handler. *)
Inductive Event :=
| EvStart
| EvSend (msg st : nat) (now : Z)
| EvSendable
| EvCredit (n : nat)
| EvDelivery (dlv : nat) (updated : bool) (remote_state : DeliveryState)
    (remote_condition : option Condition)
| EvTrackerTimer (now : Z)
| EvLinkRemoteClose (it : nat) (local_closed : bool) (condition : option Condition)
| EvStop (condition : option Condition)
| EvStopClient
| EvTimer.

Definition step (s : SenderHandler) (ev : Event) : SenderHandler :=
  match ev with
  | EvStart => start_handler s
  | EvSend msg st now => send msg st now s
  | EvSendable => on_sendable s
  | EvCredit n => grant_credit n s
  | EvDelivery dlv u rs rc => on_delivery dlv u rs rc s
  | EvTrackerTimer now => tracker_on_timer_task now s
  | EvLinkRemoteClose it lc c => on_link_remote_close it lc c s
  | EvStop c => stop c s
  | EvStopClient => on_stop_client s
  | EvTimer => on_timer_task s
  end.

Definition run (evs : list Event) (s : SenderHandler) : SenderHandler :=
  fold_left step evs s.

(** Occurrences of [r] in a list of record identities, and the records
    filed in a dict. *)
Definition cnt (r : nat) (l : list nat) : nat := count_occ Nat.eq_dec l r.
Definition drids (d : Deliveries) : list nat := map (fun kv => rid (snd kv)) d.

(** How often record [r] sits in the pending queue, in the deliveries dict,
    and in the completion log. *)
Definition in_queue (r : nat) (s : SenderHandler) : nat :=
  cnt r (map rid (queue s)).
Definition in_flight (r : nat) (s : SenderHandler) : nat :=
  cnt r (drids (deliveries s)).
Definition completed (r : nat) (s : SenderHandler) : nat :=
  cnt r (map c_rid (completions s)).

(** A record is registered once [send] has made it. *)
Definition registered (r : nat) (s : SenderHandler) : bool := r <? next_rid s.

(** Every key of the dict was made by the link before [n]. *)
Definition keys_below (n : nat) (d : Deliveries) : Prop :=
  Forall (fun kv => fst kv < n) d.

(** The bookkeeping invariant: every registered record is in exactly one of
    the pending queue, the deliveries dict and the completion log, and
    nothing else is in any of them. *)
Definition accounted (s : SenderHandler) : Prop :=
  keys_below (next_tag s) (deliveries s) /\
  forall r, in_queue r s + in_flight r s + completed r s
            = if registered r s then 1 else 0.

(** What closing the link does to a handler [s], giving [t]: every delivery
    on the dict is completed as released with the closing condition, in dict
    order; the dict is empty and the tracker has no task; the pending queue
    and the link's delivery counter are as they were. *)
Definition released_all (condition : option Condition) (s t : SenderHandler)
  : Prop :=
  completions t
  = completions s
    ++ map (fun kv => complete (snd kv) RELEASED condition) (deliveries s)
  /\ deliveries t = []
  /\ tracker_task t = false
  /\ queue t = queue s
  /\ next_tag t = next_tag s.

(** ** Lemmas on the dict and the loops *)

Arguments cnt : simpl never.
Arguments drids : simpl never.

Lemma drids_snoc (d : Deliveries) (k : nat) (e : DeliveryEvent) :
  drids (d ++ [(k, e)]) = drids d ++ [rid e].
Proof. unfold drids. now rewrite map_app. Qed.

Lemma cnt_snoc (r x : nat) (l : list nat) :
  cnt r (l ++ [x]) = cnt r l + (if Nat.eq_dec x r then 1 else 0).
Proof.
  unfold cnt. rewrite count_occ_app. simpl. destruct (Nat.eq_dec x r); lia.
Qed.

Lemma cnt_app (r : nat) (l1 l2 : list nat) :
  cnt r (l1 ++ l2) = cnt r l1 + cnt r l2.
Proof. unfold cnt. apply count_occ_app. Qed.

Lemma cnt_cons (r x : nat) (l : list nat) :
  cnt r (x :: l) = (if Nat.eq_dec x r then 1 else 0) + cnt r l.
Proof. unfold cnt. simpl. destruct (Nat.eq_dec x r); lia. Qed.

Lemma keys_below_mono (n m : nat) (d : Deliveries) :
  n <= m -> keys_below n d -> keys_below m d.
Proof.
  intros Hnm H. unfold keys_below in *.
  eapply Forall_impl; [|exact H]. simpl. intros; lia.
Qed.

Lemma dict_set_fresh (k : nat) (v : DeliveryEvent) (d : Deliveries) :
  keys_below k d -> dict_set k v d = d ++ [(k, v)].
Proof.
  induction d as [|[k' v'] d IH]; intros H; simpl; [reflexivity|].
  inversion H as [|? ? Hk Hd]; subst. simpl in Hk.
  destruct (Nat.eqb_spec k' k); [lia|].
  now rewrite IH.
Qed.

Lemma dict_pop_cnt (k r : nat) (d : Deliveries) :
  cnt r (drids d)
  = cnt r (drids (snd (dict_pop k d)))
    + match fst (dict_pop k d) with
      | Some e => if Nat.eq_dec (rid e) r then 1 else 0
      | None => 0
      end.
Proof.
  induction d as [|[k' v'] d IH]; [reflexivity|].
  cbn [dict_pop]. destruct (Nat.eqb k' k).
  - unfold drids. cbn [fst snd map]. rewrite cnt_cons. lia.
  - destruct (dict_pop k d) as [f d'] eqn:E.
    unfold drids in *. cbn [fst snd map] in *. rewrite !cnt_cons. lia.
Qed.

Lemma dict_pop_keys (k n : nat) (d : Deliveries) :
  keys_below n d -> keys_below n (snd (dict_pop k d)).
Proof.
  induction d as [|[k' v'] d IH]; intros H; simpl; [constructor|].
  inversion H; subst.
  destruct (Nat.eqb k' k); simpl; [assumption|].
  destruct (dict_pop k d) as [f d'] eqn:E. simpl in *.
  constructor; [assumption|]. apply IH. assumption.
Qed.

Lemma on_sendable_loop_spec (r : nat) (q : list DeliveryEvent) :
  forall cr d tag,
    keys_below tag d ->
    let '(cr', q', d', tag') := on_sendable_loop cr q d tag in
    keys_below tag' d' /\
    cnt r (map rid q') + cnt r (drids d') = cnt r (map rid q) + cnt r (drids d).
Proof.
  induction q as [|e q IH]; intros cr d tag H.
  - destruct cr; simpl; auto.
  - destruct cr as [|cr]; simpl; [auto|].
    rewrite (dict_set_fresh e H).
    assert (H' : keys_below (S tag) (d ++ [(tag, e)])).
    { apply Forall_app; split.
      - eapply keys_below_mono; [|exact H]. lia.
      - constructor; [simpl; lia|constructor]. }
    specialize (IH cr _ _ H').
    destruct (on_sendable_loop cr q (d ++ [(tag, e)]) (S tag))
      as [[[cr' q'] d'] tag'].
    destruct IH as [IH1 IH2]. split; [assumption|].
    rewrite IH2, drids_snoc, cnt_snoc, cnt_cons. lia.
Qed.

Lemma expire_spec (r : nat) (ref : string) (n : nat) (keys : list nat) :
  forall d cs eff,
    keys_below n d ->
    let '(d', cs', _) := expire keys ref d cs eff in
    keys_below n d' /\
    cnt r (drids d') + cnt r (map c_rid cs')
    = cnt r (drids d) + cnt r (map c_rid cs).
Proof.
  induction keys as [|k keys IH]; intros d cs eff H; simpl; [auto|].
  pose proof (dict_pop_cnt k r d) as Hc.
  pose proof (dict_pop_keys k H) as Hk.
  destruct (dict_pop k d) as [[e|] d'] eqn:E; simpl in *; [|auto].
  specialize (IH d'
    (cs ++ [complete e RELEASED (Some (timeout_condition ref))])
    (eff ++ [UpdateReleased k; Settle k]) Hk).
  destruct (expire keys ref d' _ _) as [[d'' cs''] eff''].
  destruct IH as [IH1 IH2]. split; [assumption|].
  rewrite map_app in IH2. cbn [map] in IH2. rewrite cnt_snoc in IH2.
  simpl in IH2. lia.
Qed.

(** ** The invariant holds along every run *)

(** [accounted] only reads the queue, the dict, the log and the counters. *)
Lemma accounted_ext (s t : SenderHandler) :
  queue t = queue s -> deliveries t = deliveries s ->
  completions t = completions s ->
  next_rid t = next_rid s -> next_tag t = next_tag s ->
  accounted s -> accounted t.
Proof.
  unfold accounted, in_queue, in_flight, completed, registered.
  intros -> -> -> -> ->. exact (fun H => H).
Qed.

Lemma accounted_init (c : string) : accounted (init c).
Proof.
  split; [constructor|]. intros r.
  unfold in_queue, in_flight, completed, registered. simpl.
  reflexivity.
Qed.

Lemma accounted_send (msg st : nat) (now : Z) (s : SenderHandler) :
  accounted s -> accounted (send msg st now s).
Proof.
  intros [Hk Hc]. split; [exact Hk|]. intros r. specialize (Hc r).
  unfold in_queue, in_flight, completed, registered in *. simpl.
  rewrite map_app. cbn [map rid]. rewrite cnt_snoc.
  destruct (Nat.eq_dec (next_rid s) r);
    destruct (Nat.ltb_spec r (next_rid s));
    destruct (Nat.ltb_spec r (S (next_rid s))); lia.
Qed.

Lemma accounted_on_sendable (s : SenderHandler) :
  accounted s -> accounted (on_sendable s).
Proof.
  intros [Hk Hc]. unfold on_sendable.
  destruct (link s) as [l|].
  - pose proof (fun r => on_sendable_loop_spec r (queue s) (credit l) Hk) as L.
    destruct (on_sendable_loop (credit l) (queue s) (deliveries s) (next_tag s))
      as [[[cr q] d] tag].
    assert (A : keys_below tag d /\
                forall r, cnt r (map rid q) + cnt r (drids d) + completed r s
                          = if registered r s then 1 else 0).
    { split; [apply (L 0)|]. intros r. destruct (L r) as [_ E].
      specialize (Hc r). unfold in_queue, in_flight in Hc. lia. }
    destruct d; [|destruct (track _ _)]; exact A.
  - assert (H : accounted s) by (split; assumption).
    destruct (deliveries s) eqn:E; [|destruct (track _ _)];
      (eapply accounted_ext; [..|exact H]; simpl; congruence).
Qed.

Lemma accounted_on_delivery dlv updated rs rc (s : SenderHandler) :
  accounted s -> accounted (on_delivery dlv updated rs rc s).
Proof.
  intros [Hk Hc]. unfold on_delivery. destruct updated; [|split; assumption].
  pose proof (fun r => dict_pop_cnt dlv r (deliveries s)) as P.
  pose proof (dict_pop_keys dlv Hk) as K.
  destruct (dict_pop dlv (deliveries s)) as [found d]. simpl in *.
  split; [exact K|]. intros r. specialize (Hc r). specialize (P r).
  unfold in_queue, in_flight, completed, registered in *. simpl.
  destruct found as [e|]; [|lia].
  rewrite map_app. cbn [map complete c_rid]. rewrite cnt_snoc. lia.
Qed.

Lemma accounted_check_timeout (now : Z) (s : SenderHandler) :
  accounted s -> accounted (check_timeout now s).
Proof.
  intros [Hk Hc]. unfold check_timeout.
  pose proof (fun r => expire_spec r (remote_container s)
                (expired_keys now (deliveries s)) (completions s) (effects s) Hk) as X.
  destruct (expire _ _ _ _ _) as [[d cs] eff].
  apply accounted_on_sendable. split; simpl.
  - apply (X 0).
  - intros r. destruct (X r) as [_ E]. specialize (Hc r).
    unfold in_queue, in_flight, completed, registered in *. simpl. lia.
Qed.

Lemma accounted_tracker_on_timer_task (now : Z) (s : SenderHandler) :
  accounted s -> accounted (tracker_on_timer_task now s).
Proof.
  intros H. unfold tracker_on_timer_task. destruct (tracker_task s); [|exact H].
  apply accounted_check_timeout.
  eapply accounted_ext; [..|exact H]; reflexivity.
Qed.

Lemma released_rids (condition : option Condition) (d : Deliveries) :
  map c_rid (map (fun kv => complete (snd kv) RELEASED condition) d) = drids d.
Proof. unfold drids. rewrite map_map. reflexivity. Qed.

Lemma accounted_on_link_closed (condition : option Condition) (s : SenderHandler) :
  accounted s -> accounted (on_link_closed condition s).
Proof.
  intros [Hk Hc]. unfold on_link_closed.
  destruct (tracker_stop _ _) as [task eff].
  split; [constructor|]. intros r. specialize (Hc r).
  unfold in_queue, in_flight, completed, registered in *. simpl.
  rewrite map_app, released_rids, cnt_app.
  change (cnt r (drids [])) with 0. lia.
Qed.

Lemma accounted_stop (condition : option Condition) (s : SenderHandler) :
  accounted s -> accounted (stop condition s).
Proof.
  intros H. unfold stop, on_stop.
  pose proof (accounted_on_link_closed condition H) as H1.
  destruct (link (on_link_closed condition s)); [|exact H1].
  eapply accounted_ext; [..|exact H1]; reflexivity.
Qed.

Lemma accounted_step (s : SenderHandler) (ev : Event) :
  accounted s -> accounted (step s ev).
Proof.
  intros H. destruct ev; simpl.
  - eapply accounted_ext; [..|exact H]; reflexivity.
  - now apply accounted_send.
  - now apply accounted_on_sendable.
  - unfold grant_credit. destruct (link s); [|exact H].
    eapply accounted_ext; [..|exact H]; reflexivity.
  - now apply accounted_on_delivery.
  - now apply accounted_tracker_on_timer_task.
  - unfold on_link_remote_close. destruct local_closed; [exact H|].
    match goal with
    | |- context [on_link_closed condition ?s0] =>
        assert (H0 : accounted s0)
          by (eapply accounted_ext; [..|exact H]; reflexivity);
        eapply accounted_ext;
          [..|exact (accounted_on_link_closed condition H0)]; reflexivity
    end.
  - now apply accounted_stop.
  - unfold on_stop_client. apply accounted_stop.
    eapply accounted_ext; [..|exact H]; reflexivity.
  - unfold on_timer_task. destruct (link s); [exact H|].
    destruct (client_stopped s); [exact H|].
    eapply accounted_ext; [..|exact H]; reflexivity.
Qed.

Lemma accounted_run (evs : list Event) :
  forall s, accounted s -> accounted (run evs s).
Proof.
  unfold run. induction evs as [|ev evs IH]; intros s H; simpl; [exact H|].
  apply IH. now apply accounted_step.
Qed.

(** ** What the three completing handlers can complete *)

Lemma completed_on_sendable (r : nat) (s : SenderHandler) :
  completed r (on_sendable s) = completed r s.
Proof.
  unfold on_sendable, completed.
  destruct (link s) as [l|].
  - destruct (on_sendable_loop _ _ _ _) as [[[cr q] d] tag].
    destruct d; [|destruct (track _ _)]; reflexivity.
  - destruct (deliveries s); [|destruct (track _ _)]; reflexivity.
Qed.

Lemma completed_on_link_closed (r : nat) condition (s : SenderHandler) :
  completed r (on_link_closed condition s) = completed r s + in_flight r s.
Proof.
  unfold on_link_closed, completed, in_flight.
  destruct (tracker_stop _ _) as [task eff]. simpl.
  now rewrite map_app, released_rids, cnt_app.
Qed.

Lemma completed_check_timeout (r : nat) (now : Z) (s : SenderHandler) :
  accounted s ->
  completed r (check_timeout now s) <= completed r s + in_flight r s.
Proof.
  intros [Hk _]. unfold check_timeout.
  pose proof (expire_spec r (remote_container s)
                (expired_keys now (deliveries s)) (completions s) (effects s) Hk) as X.
  destruct (expire _ _ _ _ _) as [[d cs] eff].
  rewrite completed_on_sendable. destruct X as [_ E].
  unfold completed, in_flight. simpl. lia.
Qed.

Lemma completed_on_delivery (r : nat) dlv u rs rc (s : SenderHandler) :
  completed r (on_delivery dlv u rs rc s) <= completed r s + in_flight r s.
Proof.
  unfold on_delivery. destruct u; [|lia].
  pose proof (dict_pop_cnt dlv r (deliveries s)) as P.
  destruct (dict_pop dlv (deliveries s)) as [[e|] d]; simpl in P;
    unfold completed, in_flight; simpl; [|lia].
  rewrite map_app. cbn [map complete c_rid]. rewrite cnt_snoc. lia.
Qed.

(** ** A queued record is passed by (C1) *)

(** C1 as stated fails: a record registered while the link has no credit
    stays on the pending queue; the tracker's timer, the peer closing the
    link, the client stopping and a late acknowledgment all pass it by, and
    it has no completion. *)
Lemma queued_record_is_never_completed :
  let s := run [EvStart; EvSend 7 0 0%Z; EvSendable; EvTrackerTimer 100%Z;
                EvLinkRemoteClose 1 false None; EvTimer; EvSendable;
                EvTrackerTimer 200%Z; EvStopClient;
                EvDelivery 0 true ACCEPTED None]
             (init "broker") in
  registered 0 s = true /\ completed 0 s = 0 /\ in_queue 0 s = 1
  /\ completions s = [].
Proof. vm_compute. repeat split. Qed.

(** ** Closing the link (C6) *)

(** C6, as the code has it.  When the link is closed, by [stop] or by the
    peer, every delivery on the dict is completed as released with the closing
    condition, the dict is cleared and the tracker's timer cancelled; the
    pending queue is left as it is, and nothing is transferred. *)
Theorem link_closed_releases_deliveries
  (condition : option Condition) (s : SenderHandler) :
  released_all condition s (on_link_closed condition s)
  /\ released_all condition s (stop condition s)
  /\ (forall it, released_all condition s (on_link_remote_close it false condition s)).
Proof.
  assert (H : released_all condition s (on_link_closed condition s)).
  { unfold released_all, on_link_closed, tracker_stop.
    destruct (tracker_task s); simpl; repeat split. }
  split; [exact H|]. split.
  - unfold stop, on_stop. destruct (link (on_link_closed condition s)); exact H.
  - intros it. unfold released_all, on_link_remote_close, on_link_closed, tracker_stop.
    cbn [tracker_task effects]. destruct (tracker_task s); simpl; repeat split.
Qed.

(** C6 as stated fails on the pending queue: two messages sent while the
    link has no credit are still queued, uncompleted, after [stop]. *)
Lemma stop_leaves_pending_queue :
  let s := run [EvStart; EvSend 7 0 0%Z; EvSend 8 0 1%Z; EvSendable]
             (init "broker") in
  List.length (queue s) = 2
  /\ List.length (queue (stop None s)) = 2
  /\ completions (stop None s) = []
  /\ link (stop None s) = None.
Proof. vm_compute. repeat split. Qed.

End Sender.

(* ===================================================================== *)
(** * Receiver side: [AsyncReceiver]                                     *)
(* ===================================================================== *)
Module Receiver.

Local Open Scope Z_scope.

(** [EventData.create(event.message)]: what the receiver reads of it. *)
Record EventData := { ed_offset : string; ed_body : nat }.

(** [AsyncReceiver].  [messages] is the [queue.Queue], oldest first; [link]
    holds the iteration of the link handed to [on_start]; [waiter] the
    future a suspended [receive] awaits.  [flows], [timers] and [woken] log
    the calls [link.flow(n)], [reactor.schedule(0.1, self)] and
    [loop.call_soon_threadsafe(waiter.set_result, None)]. *)
Record AsyncReceiver := {
  messages : list EventData;
  link : option nat;
  waiter : option nat;
  prefetch : Z;
  credit : Z;
  delivered : Z;
  closed : bool;
  offset : option string;
  next_future : nat;
  flows : list Z;
  timers : nat;
  woken : list nat
}.

(** [AsyncReceiver.__init__(prefetch)]. *)
Definition init (p : Z) : AsyncReceiver :=
  {| messages := []; link := None; waiter := None; prefetch := p;
     credit := 0; delivered := 0; closed := false; offset := None;
     next_future := 0; flows := []; timers := 0; woken := [] |}.

(** [AsyncReceiver.on_start(link, iteration)]. *)
Definition on_start (it : nat) (r : AsyncReceiver) : AsyncReceiver :=
  {| messages := messages r; link := Some it; waiter := waiter r;
     prefetch := prefetch r;
     credit := prefetch r; delivered := 0; closed := closed r;
     offset := offset r; next_future := next_future r;
     flows := flows r ++ [prefetch r]; timers := timers r; woken := woken r |}.

(** [AsyncReceiver.on_stop(closed)]: the flag is taken over, the link
    dropped, and the queue read until it is empty. *)
Definition on_stop (cl : bool) (r : AsyncReceiver) : AsyncReceiver :=
  {| messages := []; link := None; waiter := waiter r;
     prefetch := prefetch r;
     credit := credit r; delivered := delivered r; closed := cl;
     offset := offset r; next_future := next_future r;
     flows := flows r; timers := timers r; woken := woken r |}.

(** [AsyncReceiver._check_flow]. *)
Definition _check_flow (r : AsyncReceiver) : AsyncReceiver :=
  match link r with
  | Some _ =>
      if 100 <=? delivered r then
        {| messages := messages r; link := link r; waiter := waiter r;
           prefetch := prefetch r;
           credit := credit r + delivered r; delivered := 0;
           closed := closed r; offset := offset r;
           next_future := next_future r;
           flows := flows r ++ [delivered r]; timers := timers r;
           woken := woken r |}
      else r
  | None => r
  end.

(** [AsyncReceiver.on_message(event)]: the part under the lock, then the
    wake-up of the waiter, if there is one. *)
Definition on_message (ed : EventData) (r : AsyncReceiver) : AsyncReceiver :=
  let r1 :=
    _check_flow
      {| messages := messages r ++ [ed]; link := link r; waiter := waiter r;
         prefetch := prefetch r;
         credit := credit r - 1; delivered := delivered r;
         closed := closed r; offset := Some (ed_offset ed);
         next_future := next_future r;
         flows := flows r; timers := timers r; woken := woken r |} in
  let t := if credit r1 =? 0 then S (timers r1) else timers r1 in
  {| messages := messages r1; link := link r1; waiter := None;
     prefetch := prefetch r1;
     credit := credit r1; delivered := delivered r1;
     closed := closed r1; offset := offset r1;
     next_future := next_future r1;
     flows := flows r1; timers := t;
     woken := match waiter r1 with
              | Some w => woken r1 ++ [w]
              | None => woken r1
              end |}.

(** [AsyncReceiver.on_timer_task]. *)
Definition on_timer_task (r : AsyncReceiver) : AsyncReceiver :=
  let r1 := _check_flow r in
  let again :=
    match waiter r1, messages r1 with
    | None, _ :: _ => true
    | _, _ => false
    end in
  {| messages := messages r1; link := link r1; waiter := waiter r1;
     prefetch := prefetch r1;
     credit := credit r1; delivered := delivered r1;
     closed := closed r1; offset := offset r1;
     next_future := next_future r1;
     flows := flows r1;
     timers := if again then S (timers r1) else timers r1;
     woken := woken r1 |}.

(** The inner loop of [receive]: while the queue has an item and [count] is
    positive, move the head of the queue to the batch. *)
Fixpoint drain (msgs : list EventData) (count : Z) (batch : list EventData)
  (dl : Z) : list EventData * list EventData * Z :=
  match msgs with
  | m :: rest =>
      if 0 <? count then drain rest (count - 1) (batch ++ [m]) (dl + 1)
      else (msgs, batch, dl)
  | [] => (msgs, batch, dl)
  end.

(** How one pass of the loop of [receive] ends. *)
Inductive Received :=
| Batch (b : list EventData)   (* return batch *)
| Eof                          (* return None *)
| Suspended.                   (* await waiter *)

(** One pass of the [while not self.closed] loop of [receive(count)].  The
    batch is empty at the head of every pass, since a pass that fills it
    returns; a suspended call makes its next pass when its waiter is woken. *)
Definition receive (count : Z) (r : AsyncReceiver) : AsyncReceiver * Received :=
  if closed r then (r, Eof)
  else
    let '(msgs, batch, dl) := drain (messages r) count [] (delivered r) in
    match batch with
    | _ :: _ =>
        ({| messages := msgs; link := link r; waiter := waiter r;
            prefetch := prefetch r;
            credit := credit r; delivered := dl;
            closed := closed r; offset := offset r;
            next_future := next_future r;
            flows := flows r; timers := timers r; woken := woken r |},
         Batch batch)
    | [] =>
        ({| messages := msgs; link := link r;
            waiter := Some (next_future r);
            prefetch := prefetch r;
            credit := credit r; delivered := dl;
            closed := closed r; offset := offset r;
            next_future := S (next_future r);
            flows := flows r; timers := timers r; woken := woken r |},
         Suspended)
    end.

(** What can happen to a receiver. *)
Inductive Event :=
| EvOnStart (it : nat)
| EvOnStop (cl : bool)
| EvOnMessage (ed : EventData)
| EvOnTimerTask
| EvReceive (count : Z).

Definition step (r : AsyncReceiver) (ev : Event) : AsyncReceiver :=
  match ev with
  | EvOnStart it => on_start it r
  | EvOnStop cl => on_stop cl r
  | EvOnMessage ed => on_message ed r
  | EvOnTimerTask => on_timer_task r
  | EvReceive count => fst (receive count r)
  end.

Definition run (evs : list Event) (r : AsyncReceiver) : AsyncReceiver :=
  fold_left step evs r.

(** The messages [on_message] was called with, in order. *)
Fixpoint arrivals (evs : list Event) : list EventData :=
  match evs with
  | [] => []
  | EvOnMessage ed :: evs' => ed :: arrivals evs'
  | _ :: evs' => arrivals evs'
  end.

(** The message an event brings, if it is an arrival. *)
Definition arrived (ev : Event) : list EventData :=
  match ev with
  | EvOnMessage ed => [ed]
  | _ => []
  end.

(** Events between a start of the link and its next stop or restart. *)
Definition steady (ev : Event) : bool :=
  match ev with
  | EvOnStart _ | EvOnStop _ => false
  | _ => true
  end.

(** All credit granted so far. *)
Definition granted (r : AsyncReceiver) : Z := fold_right Z.add 0 (flows r).

(** The credit the receiver holds or has yet to hand back: what it still has,
    what sits in the buffer, and what [receive] has returned since the last
    grant. *)
Definition balance (r : AsyncReceiver) : Z :=
  credit r + Z.of_nat (List.length (messages r)) + delivered r.

(** The scenario of the specification: [n] messages, each taken by
    [receive(1)] before the next arrives. *)
Definition one_at_a_time (ed : EventData) (n : nat) : list Event :=
  List.concat (repeat [EvOnMessage ed; EvReceive 1] n).

(** ** The inner loop and one pass of [receive] *)

Lemma drain_spec (msgs : list EventData) :
  forall count batch dl,
    drain msgs count batch dl
    = (skipn (Z.to_nat count) msgs,
       batch ++ firstn (Z.to_nat count) msgs,
       dl + Z.of_nat (List.length (firstn (Z.to_nat count) msgs))).
Proof.
  induction msgs as [|m rest IH]; intros count batch dl; simpl.
  - rewrite skipn_nil, firstn_nil, app_nil_r. simpl. now rewrite Z.add_0_r.
  - destruct (Z.ltb_spec 0 count) as [Hpos|Hle].
    + rewrite IH.
      replace (Z.to_nat count) with (S (Z.to_nat (count - 1))) by lia.
      cbn [skipn firstn List.length]. rewrite <- app_assoc. cbn [app].
      rewrite Nat2Z.inj_succ. f_equal. lia.
    + replace (Z.to_nat count) with 0%nat by lia.
      simpl. now rewrite app_nil_r, Z.add_0_r.
Qed.

(** What a pass of [receive] returns, read off the state it starts in. *)
Lemma receive_cases (count : Z) (r : AsyncReceiver) :
  0 < count ->
  match receive count r with
  | (r', Batch b) =>
      closed r = false /\ b <> []
      /\ b = firstn (Z.to_nat count) (messages r)
      /\ messages r' = skipn (Z.to_nat count) (messages r)
      /\ delivered r' = delivered r + Z.of_nat (List.length b)
  | (r', Eof) => closed r = true /\ r' = r
  | (r', Suspended) =>
      closed r = false /\ messages r = [] /\ waiter r' = Some (next_future r)
  end.
Proof.
  intros Hpos. unfold receive. destruct (closed r) eqn:Hc; [now split|].
  rewrite drain_spec. cbn [app].
  destruct (firstn (Z.to_nat count) (messages r)) as [|m b] eqn:Hf.
  - simpl. repeat split.
    destruct (messages r) as [|m rest]; [reflexivity|].
    replace (Z.to_nat count) with (S (Z.to_nat (count - 1))) in Hf by lia.
    discriminate Hf.
  - simpl. repeat split. discriminate.
Qed.

(** ** The buffer holds the latest arrivals, in order *)

Lemma arrivals_cons (ev : Event) (evs : list Event) :
  arrivals (ev :: evs) = arrived ev ++ arrivals evs.
Proof. destruct ev; reflexivity. Qed.

Lemma messages_check_flow (r : AsyncReceiver) :
  messages (_check_flow r) = messages r.
Proof.
  unfold _check_flow. destruct (link r); [|reflexivity].
  destruct (100 <=? delivered r); reflexivity.
Qed.

Lemma step_buffer (r : AsyncReceiver) (ev : Event) :
  exists gone, messages r ++ arrived ev = gone ++ messages (step r ev).
Proof.
  destruct ev as [it|cl|ed| |count]; simpl.
  - exists []. now rewrite app_nil_r.
  - exists (messages r). reflexivity.
  - exists []. now rewrite messages_check_flow.
  - exists []. now rewrite messages_check_flow, app_nil_r.
  - unfold receive. destruct (closed r).
    + exists []. now rewrite app_nil_r.
    + rewrite drain_spec. cbn [app].
      exists (firstn (Z.to_nat count) (messages r)).
      rewrite app_nil_r.
      rewrite <- (firstn_skipn (Z.to_nat count) (messages r)) at 1.
      f_equal. destruct (firstn (Z.to_nat count) (messages r)); reflexivity.
Qed.

Lemma run_buffer (evs : list Event) :
  forall r, exists gone,
    messages r ++ arrivals evs = gone ++ messages (run evs r).
Proof.
  induction evs as [|ev evs IH]; intros r.
  - exists []. simpl. now rewrite app_nil_r.
  - rewrite arrivals_cons. simpl.
    destruct (step_buffer r ev) as [g1 H1].
    destruct (IH (step r ev)) as [g2 H2].
    exists (g1 ++ g2).
    rewrite app_assoc, H1, <- !app_assoc. f_equal. exact H2.
Qed.

Lemma receive_batch_split (count : Z) (r r' : AsyncReceiver) (b : list EventData) :
  receive count r = (r', Batch b) ->
  messages r = b ++ messages r'
  /\ delivered r' = delivered r + Z.of_nat (List.length b).
Proof.
  unfold receive. destruct (closed r); [discriminate|].
  rewrite drain_spec. cbn [app].
  destruct (firstn (Z.to_nat count) (messages r)) as [|m l] eqn:E;
    [discriminate|].
  intros H. injection H as <- <-. cbn [messages delivered]. split; [|reflexivity].
  rewrite <- E. symmetry. apply firstn_skipn.
Qed.

(** ** Credit accounting *)

Lemma granted_snoc (r : AsyncReceiver) (fl : list Z) (x : Z) :
  fold_right Z.add 0 (fl ++ [x]) = fold_right Z.add 0 fl + x.
Proof. induction fl as [|y fl IH]; simpl; lia. Qed.

Lemma check_flow_accounts (r : AsyncReceiver) :
  balance (_check_flow r) = balance r
  /\ granted (_check_flow r) - credit (_check_flow r) = granted r - credit r.
Proof.
  unfold _check_flow. destruct (link r); [|split; reflexivity].
  destruct (100 <=? delivered r); [|split; reflexivity].
  unfold balance, granted. simpl. rewrite (granted_snoc r). lia.
Qed.

Lemma step_accounts (r : AsyncReceiver) (ev : Event) :
  steady ev = true ->
  balance (step r ev) = balance r
  /\ granted (step r ev) - credit (step r ev)
     = granted r - credit r + Z.of_nat (List.length (arrived ev)).
Proof.
  destruct ev as [it|cl|ed| |count]; simpl; try discriminate; intros _.
  - unfold on_message.
    match goal with |- context [_check_flow ?x] => set (r0 := x) end.
    destruct (check_flow_accounts r0) as [B G].
    unfold balance, granted in *. simpl in *.
    rewrite length_app in B. simpl in B. lia.
  - unfold on_timer_task.
    destruct (check_flow_accounts r) as [B G].
    unfold balance, granted in *. simpl in *. lia.
  - unfold receive. destruct (closed r); [simpl; lia|].
    rewrite drain_spec. cbn [app].
    pose proof (firstn_skipn (Z.to_nat count) (messages r)) as FS.
    apply (f_equal (@List.length _)) in FS. rewrite length_app in FS.
    destruct (firstn (Z.to_nat count) (messages r)) eqn:E;
      unfold balance, granted; simpl in *; lia.
Qed.

Lemma run_accounts (evs : list Event) :
  forall r, forallb steady evs = true ->
    balance (run evs r) = balance r
    /\ granted (run evs r) - credit (run evs r)
       = granted r - credit r + Z.of_nat (List.length (arrivals evs)).
Proof.
  induction evs as [|ev evs IH]; intros r H.
  - simpl. lia.
  - simpl in H. apply andb_prop in H as [Hev Hevs].
    destruct (step_accounts r ev Hev) as [B G].
    destruct (IH (step r ev) Hevs) as [B' G'].
    rewrite arrivals_cons, length_app. change (run (ev :: evs) r) with (run evs (step r ev)).
    lia.
Qed.

(** Arrivals alone leave the consumption counter, and so the grants, alone. *)
Lemma arrivals_do_not_count (eds : list EventData) :
  forall r, delivered r = 0 ->
    flows (run (map EvOnMessage eds) r) = flows r
    /\ delivered (run (map EvOnMessage eds) r) = 0.
Proof.
  induction eds as [|ed eds IH]; intros r H; [now split|].
  cbn [map]. change (run (EvOnMessage ed :: map EvOnMessage eds) r)
    with (run (map EvOnMessage eds) (on_message ed r)).
  assert (S : flows (on_message ed r) = flows r /\ delivered (on_message ed r) = 0).
  { unfold on_message, _check_flow. cbn [link delivered]. rewrite H.
    destruct (link r); simpl; now split. }
  destruct S as [S1 S2]. destruct (IH _ S2) as [I1 I2].
  split; congruence.
Qed.

(** ** [receive(count)] (C2) *)

(** C2.  After any events, a pass of [receive(count)] with a positive
    [count] either returns a batch, which is then not empty, holds at most
    [count] items and is the oldest items of the buffer, in the order
    [on_message] put them there (the arrivals read: what is gone, the batch,
    what stays buffered); or it suspends, when the receiver is not closed and
    the buffer is empty; or it returns the closed marker, and then the
    receiver is closed. *)
Theorem receive_returns_oldest_in_arrival_order
  (p : Z) (evs : list Event) (count : Z) :
  0 < count ->
  let r := run evs (init p) in
  match receive count r with
  | (r', Batch b) =>
      closed r = false
      /\ b <> []
      /\ Z.of_nat (List.length b) <= count
      /\ b = firstn (Z.to_nat count) (messages r)
      /\ (exists gone, arrivals evs = gone ++ b ++ messages r')
  | (r', Eof) => closed r = true
  | (r', Suspended) =>
      closed r = false /\ messages r = [] /\ waiter r' = Some (next_future r)
  end.
Proof.
  intros Hpos r.
  pose proof (receive_cases r Hpos) as C.
  destruct (run_buffer evs (init p)) as [gone G]. fold r in G. simpl in G.
  destruct (receive count r) as [r' [b| |]].
  - destruct C as (Hc & Hne & Hb & Hm & _).
    repeat split; try assumption.
    + rewrite Hb, length_firstn. lia.
    + exists gone. rewrite G, Hb, Hm. now rewrite firstn_skipn.
  - apply C.
  - exact C.
Qed.

(** Three messages arrive; [receive(2)] returns the first two, in order. *)
Lemma receive_returns_oldest_in_arrival_order_witness :
  let a := {| ed_offset := "10"; ed_body := 1 |} in
  let b := {| ed_offset := "11"; ed_body := 2 |} in
  let c := {| ed_offset := "12"; ed_body := 3 |} in
  0 < 2
  /\ snd (receive 2 (run [EvOnStart 1; EvOnMessage a; EvOnMessage b;
                          EvOnMessage c] (init 300))) = Batch [a; b]
  /\ exists gone, [a; b; c] = gone ++ [a; b] ++ [c].
Proof.
  intros a b c.
  assert (Hpos : 0 < 2) by lia.
  pose proof (@receive_returns_oldest_in_arrival_order 300
                [EvOnStart 1; EvOnMessage a; EvOnMessage b; EvOnMessage c]
                2 Hpos) as H.
  vm_compute in H. destruct H as (_ & _ & _ & _ & H).
  split; [exact Hpos|]. split; [reflexivity|]. exact H.
Defined.

(** ** [on_stop] (C10) *)


(** ** Credit between grants (C3) *)

(** C3, as the code has it.  Take any start of the link: [on_start] on a
    receiver in any state, its buffer empty, as on the first start and after
    [on_stop], or not, as on the restart that follows a link closed by the
    peer.  Over any interleaving of [on_message], [receive] and timer
    ([_check_flow]) steps from there, the remaining credit, the number of
    buffered messages and the count returned by [receive] since the last
    grant add up to the prefetch plus the number of messages that were in the
    buffer at that start; and the remaining credit is the credit granted from
    that start on less the messages that arrived since. *)
Theorem credit_balance_since_start
  (r0 : AsyncReceiver) (it : nat) (evs : list Event) :
  forallb steady evs = true ->
  let r := run evs (on_start it r0) in
  credit r + Z.of_nat (List.length (messages r)) + delivered r
  = prefetch r0 + Z.of_nat (List.length (messages r0))
  /\ credit r
     = granted r - granted r0 - Z.of_nat (List.length (arrivals evs)).
Proof.
  intros H r.
  destruct (run_accounts evs (on_start it r0) H) as [B G].
  fold r in B, G. unfold balance, granted in *. cbn in B, G.
  rewrite (granted_snoc r0) in G. lia.
Qed.

Lemma credit_balance_since_start_witness :
  let ed := {| ed_offset := "10"; ed_body := 1 |} in
  let r0 := run [EvOnStart 1; EvOnMessage ed; EvOnMessage ed] (init 300) in
  let evs := [EvOnMessage ed; EvReceive 1; EvOnTimerTask] in
  let r := run evs (on_start 2 r0) in
  forallb steady evs = true
  /\ credit r + Z.of_nat (List.length (messages r)) + delivered r = 300 + 2
  /\ credit r = granted r - granted r0 - 1.
Proof.
  intros ed r0 evs r.
  assert (H : forallb steady evs = true) by reflexivity.
  split; [exact H|].
  exact (@credit_balance_since_start r0 2 evs H).
Defined.

(** C3 as stated fails: after the initial grant of 300, one arrival leaves
    remaining credit plus the counter at 299; and after the re-grant of 100
    the two add up to 299 again, not to 100. *)
Lemma credit_plus_delivered_is_not_last_grant :
  let ed := {| ed_offset := "10"; ed_body := 1 |} in
  let r1 := run [EvOnMessage ed] (on_start 1 (init 300)) in
  let r2 := run (one_at_a_time ed 100 ++ [EvOnMessage ed]) (on_start 1 (init 300)) in
  (flows r1 = [300] /\ credit r1 + delivered r1 = 299)
  /\ (flows r2 = [300; 100] /\ credit r2 + delivered r2 = 299).
Proof. vm_compute. repeat split. Qed.

(** ** What triggers a re-grant (C4) *)

(** C4, as the code has it.  The counter behind the re-grants is moved by
    [receive] only: arrivals alone never cause a grant beyond the initial
    one, and a batch returned by [receive] adds its length to the counter.
    The grant is issued by the next [on_message] that finds the counter at
    100 or more on a live link: its size is the counter, which goes back to
    zero.  With prefetch 300 and 150 messages, each taken by [receive(1)]
    before the next arrives, the counter stands at 100 after message 100, the
    one re-grant, of size 100, is issued when message 101 arrives, and the
    counter ends at 50. *)
Theorem regrant_follows_consumption (ed : EventData) :
  (forall p it eds,
      let r := run (map EvOnMessage eds) (on_start it (init p)) in
      flows r = [p] /\ delivered r = 0)
  /\ (forall count r,
      match receive count r with
      | (r', Batch b) => delivered r' = delivered r + Z.of_nat (List.length b)
      | (r', _) => delivered r' = delivered r
      end)
  /\ (forall r l,
      link r = Some l -> 100 <= delivered r ->
      flows (on_message ed r) = flows r ++ [delivered r]
      /\ delivered (on_message ed r) = 0
      /\ credit (on_message ed r) = credit r - 1 + delivered r)
  /\ (let r100 := run (one_at_a_time ed 100) (on_start 1 (init 300)) in
      let r150 := run (one_at_a_time ed 150) (on_start 1 (init 300)) in
      flows r100 = [300] /\ delivered r100 = 100
      /\ flows (on_message ed r100) = [300; 100]
      /\ flows r150 = [300; 100] /\ delivered r150 = 50).
Proof.
  split; [|split; [|split]].
  - intros p it eds r.
    destruct (arrivals_do_not_count eds (on_start it (init p)) eq_refl) as [F D].
    split; [exact F|exact D].
  - intros count r. destruct (receive count r) as [r' [b| |]] eqn:E.
    + now apply receive_batch_split in E.
    + unfold receive in E. destruct (closed r).
      * now injection E as <-.
      * rewrite drain_spec in E.
        destruct (firstn (Z.to_nat count) (messages r)); discriminate.
    + unfold receive in E. destruct (closed r); [discriminate|].
      rewrite drain_spec in E. cbn [app] in E.
      destruct (firstn (Z.to_nat count) (messages r)) eqn:F; [|discriminate].
      injection E as <-. simpl. lia.
  - intros r l Hl Hd. unfold on_message, _check_flow. cbn [link delivered].
    rewrite Hl. apply Z.leb_le in Hd. rewrite Hd. simpl. repeat split.
  - vm_compute. repeat split.
Qed.

(** C4 as stated fails: with prefetch 300, 150 arrivals that nobody takes
    out of the buffer cause no re-grant: the only grant is the initial one
    and the counter is still zero. *)
Lemma arrivals_alone_cause_no_regrant :
  let ed := {| ed_offset := "10"; ed_body := 1 |} in
  let r := run (repeat (EvOnMessage ed) 150) (on_start 1 (init 300)) in
  flows r = [300] /\ delivered r = 0 /\ credit r = 150
  /\ List.length (messages r) = 150%nat.
Proof. vm_compute. repeat split. Qed.

End Receiver.

(* ===================================================================== *)
(** * Client: [EventHubClientAsync.run_async] and [_handle_redirect]     *)
(* ===================================================================== *)
Module Client.

(** Exceptions: the client's own [EventHubError], Python's [IndexError], and
    any other exception, each with its [str]. *)
Inductive Exn :=
| EventHubError (msg : string)
| IndexError
| OtherError (msg : string).

Definition str (e : Exn) : string :=
  match e with
  | EventHubError msg => msg
  | IndexError => "list index out of range"
  | OtherError msg => msg
  end.

(** A redirect a link was told of: [hostname] and [address] are read. *)
Record Redirect := { hostname : string; address : string }.

(** A registered [AsyncSender]/[AsyncReceiver], as the client reads it:
    [error] and [redirected] are set by the link while it starts. *)
Record Handle := {
  name : nat;
  error : option Exn;
  redirected : option Redirect
}.

(** Calls the client makes on the connection and on its links. *)
Inductive Effect :=
| CreateConnection
| DestroyConnection
| CreateAuth (uri : string)
| RedirectConnection (r : Redirect)
| OpenClient (n : nat)
| CloseClient (n : nat).

Record EventHubClientAsync := {
  clients : list Handle;
  connection : bool;            (* self.connection is not None *)
  auth : string;                (* the URI self.auth was made for *)
  stopped : bool;
  effects : list Effect
}.

(** Results of a call, and calls as state transformers that may raise. *)
Inductive Result (A : Type) :=
| Ok (a : A)
| Raise (e : Exn).
Arguments Ok {A} a.
Arguments Raise {A} e.

Definition M (A : Type) : Type :=
  EventHubClientAsync -> EventHubClientAsync * Result A.

Definition ret {A : Type} (a : A) : M A := fun s => (s, Ok a).
Definition raise {A : Type} (e : Exn) : M A := fun s => (s, Raise e).
Definition bind {A B : Type} (m : M A) (k : A -> M B) : M B :=
  fun s =>
    match m s with
    | (s', Ok a) => k a s'
    | (s', Raise e) => (s', Raise e)
    end.
Definition get : M EventHubClientAsync := fun s => (s, Ok s).
Definition put (s : EventHubClientAsync) : M unit := fun _ => (s, Ok tt).
(** [try: m except Exception as e: h e]. *)
Definition try_except {A : Type} (m : M A) (h : Exn -> M A) : M A :=
  fun s =>
    match m s with
    | (s', Ok a) => (s', Ok a)
    | (s', Raise e) => h e s'
    end.

Declare Scope client_scope.
Delimit Scope client_scope with client.
Notation "x <- m ;; k" := (bind m (fun x => k))
  (at level 61, m at next level, right associativity) : client_scope.
Notation "m ;; k" := (bind m (fun _ => k))
  (at level 61, right associativity) : client_scope.
Local Open Scope client_scope.

Definition emit (l : list Effect) : M unit :=
  fun s =>
    ({| clients := clients s; connection := connection s; auth := auth s;
        stopped := stopped s; effects := effects s ++ l |}, Ok tt).

Definition set_clients (cs : list Handle) : M unit :=
  fun s =>
    ({| clients := cs; connection := connection s; auth := auth s;
        stopped := stopped s; effects := effects s |}, Ok tt).

Definition set_auth (a : string) : M unit :=
  fun s =>
    ({| clients := clients s; connection := connection s; auth := a;
        stopped := stopped s; effects := effects s |}, Ok tt).

Definition set_connection (c : bool) : M unit :=
  fun s =>
    ({| clients := clients s; connection := c; auth := auth s;
        stopped := stopped s; effects := effects s |}, Ok tt).

Definition set_stopped (b : bool) : M unit :=
  fun s =>
    ({| clients := clients s; connection := connection s; auth := auth s;
        stopped := b; effects := effects s |}, Ok tt).

(** [[c.redirected for c in clients if c.redirected]]. *)
Fixpoint reported_redirects (cs : list Handle) : list Redirect :=
  match cs with
  | [] => []
  | c :: cs' =>
      match redirected c with
      | Some r => r :: reported_redirects cs'
      | None => reported_redirects cs'
      end
  end.

(** [[c.error for c in clients if c.error]]. *)
Fixpoint reported_errors (cs : list Handle) : list Exn :=
  match cs with
  | [] => []
  | c :: cs' =>
      match error c with
      | Some e => e :: reported_errors cs'
      | None => reported_errors cs'
      end
  end.

(** [_create_connection_async]. *)
Definition _create_connection_async : M unit :=
  self <- get ;;
  if connection self then ret tt
  else emit [CreateConnection] ;; set_connection true.

(** [_close_clients_async]. *)
Definition _close_clients_async : M unit :=
  self <- get ;;
  emit (map (fun c => CloseClient (name c)) (clients self)).

(** [_close_connection_async]. *)
Definition _close_connection_async : M unit :=
  self <- get ;;
  if connection self then emit [DestroyConnection] ;; set_connection false
  else ret tt.

(** [stop_async]. *)
Definition stop_async : M unit :=
  set_stopped true ;;
  _close_clients_async ;;
  _close_connection_async.

Section Run.

(** What the links do while the client awaits them lies outside this file.
    [start_client_async c] is the link [c] once [_start_client_async] has
    returned (a failure to start is caught there and left in [c.error]);
    [wait_for_client c] is [c] after [_wait_for_client], and whether that task
    was still pending when the five seconds of [asyncio.wait] were over. *)
Variable start_client_async : Handle -> Handle.
Variable wait_for_client : Handle -> Handle * bool.

Definition is_redirected (c : Handle) : bool :=
  match redirected c with Some _ => true | None => false end.

(** The clients after [asyncio.wait] on those not redirected. *)
Definition waited (cs : list Handle) : list Handle :=
  map (fun c => if is_redirected c then c else fst (wait_for_client c)) cs.

(** The second result of [asyncio.wait]: some task is still pending. *)
Definition timed_out (cs : list Handle) : bool :=
  existsb (fun c => negb (is_redirected c) && snd (wait_for_client c)) cs.

(** [_handle_redirect(redirects)].  [asyncio.wait] raises [ValueError] when
    it is given no task, that is when no client is left to wait for. *)
Definition _handle_redirect (redirects : list Redirect) : M unit :=
  self <- get ;;
  redirects <-
    (if Nat.eqb (List.length redirects) (List.length (clients self))
     then ret redirects
     else
       if forallb is_redirected (clients self)
       then raise (OtherError "Set of coroutines/Futures is empty.")
       else
         set_clients (waited (clients self)) ;;
         if timed_out (clients self)
         then raise (EventHubError
                       "Some clients are attempting to redirect the connection.")
         else ret (reported_redirects (waited (clients self)))) ;;
  match redirects with
  | [] => raise IndexError
  | r0 :: _ =>
      if forallb (fun r => String.eqb (hostname r) (hostname r0)) redirects
      then
        emit [CreateAuth (address r0)] ;;
        set_auth (address r0) ;;
        emit [RedirectConnection r0] ;;
        self <- get ;;
        emit (map (fun c => OpenClient (name c)) (clients self))
      else raise (EventHubError
                    "Multiple clients attempting to redirect to different hosts.")
  end.

(** The [try] statement of [run_async], entered once every client has been
    started. *)
Definition run_started : M (list Exn) :=
  try_except
    (self <- get ;;
     let redirects := reported_redirects (clients self) in
     let failed := reported_errors (clients self) in
     match failed with
     | e :: _ =>
         if Nat.eqb (List.length failed) (List.length (clients self))
         then raise e
         else ret failed
     | [] =>
         match redirects with
         | _ :: _ => _handle_redirect redirects ;; ret failed
         | [] => ret failed
         end
     end)
    (fun exn =>
       match exn with
       | EventHubError _ => stop_async ;; raise exn
       | _ => stop_async ;; raise (EventHubError (str exn))
       end).

(** [run_async]: the connection is made, every client started, and the
    outcome looked at. *)
Definition run_async : M (list Exn) :=
  _create_connection_async ;;
  self <- get ;;
  set_clients (map start_client_async (clients self)) ;;
  run_started.

(** The client as the [try] statement of [run_async] finds it: the
    connection made if there was none, and every client started. *)
Definition entered (self : EventHubClientAsync) : EventHubClientAsync :=
  {| clients := map start_client_async (clients self);
     connection := true; auth := auth self; stopped := stopped self;
     effects := effects self
                ++ (if connection self then [] else [CreateConnection]) |}.

(** No wait was needed, or there was somebody to wait for and the wait did
    not time out. *)
Definition settled (self : EventHubClientAsync) (redirects : list Redirect)
  : bool :=
  Nat.eqb (List.length redirects) (List.length (clients self))
  || (negb (forallb is_redirected (clients self))
      && negb (timed_out (clients self))).

(** The redirects [_handle_redirect] decides on: the ones passed in when
    every client reported one, else the ones reported after the wait. *)
Definition considered (self : EventHubClientAsync) (redirects : list Redirect)
  : list Redirect :=
  if Nat.eqb (List.length redirects) (List.length (clients self))
  then redirects
  else reported_redirects (waited (clients self)).

(** Case analysis on the test of a conditional in hypothesis [H]. *)
Ltac case_if_in H :=
  match type of H with
  | context [if ?c then _ else _] => destruct c
  end.

(** ** Redirects (C9) *)




(** ** Start-up failures (C5) *)

Lemma reported_errors_length (cs : list Handle) :
  (List.length (reported_errors cs) <= List.length cs)%nat.
Proof.
  induction cs as [|c cs IH]; simpl; [lia|].
  destruct (error c); simpl; lia.
Qed.

(** C5, as the code has it.  With the clients as they are after their start:
    if there is at least one and all failed, [run_async] raises
    [EventHubError], having closed every client and destroyed the connection;
    if some but not all failed, it returns exactly their errors, in
    registration order, and the connection stays; if none failed and none was
    redirected, it returns the empty list; if none failed and some were
    redirected, [_handle_redirect] is run on their redirects: when it
    returns, [run_async] returns the empty list, in the state it left, the
    connection up; when it raises, [run_async] stops the client, the
    connection torn down, and raises [EventHubError] with that error's
    text. *)
Theorem run_async_start_failures (self : EventHubClientAsync) :
  let started := map start_client_async (clients self) in
  let failed := reported_errors started in
  let '(self', res) := run_async self in
  (started <> [] -> List.length failed = List.length started ->
   (exists msg, res = Raise (EventHubError msg))
   /\ connection self' = false /\ stopped self' = true
   /\ exists before,
        effects self'
        = before ++ map (fun c => CloseClient (name c)) started
          ++ [DestroyConnection])
  /\ (failed <> [] -> (List.length failed < List.length started)%nat ->
      res = Ok failed
      /\ connection self' = true /\ stopped self' = stopped self
      /\ clients self' = started)
  /\ (failed = [] -> reported_redirects started = [] ->
      res = Ok []
      /\ connection self' = true /\ stopped self' = stopped self)
  /\ (failed = [] -> reported_redirects started <> [] ->
      match _handle_redirect (reported_redirects started) (entered self) with
      | (s1, Ok _) =>
          res = Ok [] /\ self' = s1
          /\ connection self' = true /\ stopped self' = stopped self
      | (s1, Raise e) =>
          res = Raise (EventHubError (str e)) /\ self' = fst (stop_async s1)
          /\ connection self' = false /\ stopped self' = true
      end).
Proof.
  intros started failed.
  assert (R : run_async self = run_started (entered self)).
  { unfold run_async, _create_connection_async, bind, get, ret, set_clients,
      set_connection, emit, entered.
    destruct self as [cs [|] a st eff]; cbn; [now rewrite app_nil_r|reflexivity]. }
  rewrite R. unfold entered. fold started.
  set (eff := effects self ++ (if connection self then [] else [CreateConnection])).
  unfold run_started, try_except, bind at 1, get at 1, ret.
  cbn [clients connection auth stopped effects].
  fold failed.
  set (s0 := {| clients := started; connection := true; auth := auth self;
                stopped := stopped self; effects := eff |}).
  destruct failed as [|e fl] eqn:Ef.
  - (* nobody failed *)
    destruct (reported_redirects started) as [|r rs] eqn:Er.
    + cbn. split.
      { intros Hne Hlen. destruct started; [now elim Hne|discriminate Hlen]. }
      split; [intros H; now elim H|].
      split; [intros _ _; now repeat split|]. intros _ H. now elim H.
    + unfold bind at 1.
      destruct (_handle_redirect (r :: rs) s0) as [s1 [[]|ex]] eqn:E.
      * assert (K : connection s1 = true /\ stopped s1 = stopped self).
        { unfold _handle_redirect, bind, get, ret, raise, set_clients,
            set_auth, emit in E. cbn [clients s0] in E.
          destruct (Nat.eqb _ _) in E; cbn in E.
          - case_if_in E; [|discriminate].
            injection E as <-. now split.
          - destruct (forallb is_redirected started) in E; [discriminate|].
            destruct (timed_out started) in E; [discriminate|].
            destruct (reported_redirects (waited started)) in E; [discriminate|].
            cbn in E. case_if_in E; [|discriminate].
            injection E as <-. now split. }
        cbn. split.
        { intros Hne Hlen. destruct started; [now elim Hne|discriminate Hlen]. }
        split; [intros H; now elim H|].
        split; [intros _ H; discriminate H|]. intros _ _.
        destruct K. now repeat split.
      * unfold stop_async, _close_clients_async, _close_connection_async,
          bind, get, ret, raise, set_stopped, set_connection, emit.
        destruct ex; cbn; destruct (connection s1); cbn;
          (split;
           [intros Hne Hlen; destruct started; [now elim Hne|discriminate Hlen]|];
           split; [intros H; now elim H|];
           split; [intros _ H; discriminate H|]; intros _ _;
           now repeat split).
  - (* somebody failed *)
    destruct (Nat.eqb (List.length (e :: fl)) (List.length started)) eqn:N.
    + apply Nat.eqb_eq in N.
      unfold stop_async, _close_clients_async, _close_connection_async,
        bind, get, ret, raise, set_stopped, set_connection, emit.
      destruct e; cbn;
        (split;
         [intros _ _; split; [eexists; reflexivity|];
          split; [reflexivity|]; split; [reflexivity|];
          exists eff; now rewrite <- app_assoc|];
         split; [intros _ H; cbn in N; lia|];
         split; intros H; discriminate H).
    + apply Nat.eqb_neq in N. cbn.
      split; [intros _ H; now elim N|].
      split; [intros _ _; now repeat split|].
      split; intros H; discriminate H.
Qed.

End Run.

(** C5 as stated fails when none failed: two clients start without error,
    each told to redirect, but to different hosts; [run_async] raises and
    tears the connection down instead of returning the empty list. *)
Lemma run_async_raises_though_none_failed :
  let c1 := {| name := 1; error := None;
               redirected := Some {| hostname := "a.example"; address := "amqps://a" |} |} in
  let c2 := {| name := 2; error := None;
               redirected := Some {| hostname := "b.example"; address := "amqps://b" |} |} in
  let self := {| clients := [c1; c2]; connection := false; auth := "amqps://origin";
                 stopped := false; effects := [] |} in
  let '(self', res) := run_async (fun c => c) (fun c => (c, false)) self in
  reported_errors (clients self') = []
  /\ res = Raise (EventHubError
                    "Multiple clients attempting to redirect to different hosts.")
  /\ connection self' = false
  /\ stopped self' = true.
Proof. vm_compute. repeat split. Qed.

(** Two redirected clients that name different hosts: [_handle_redirect]
    raises, with nothing done; two that name the same host: it goes through. *)
Example handle_redirect_conflict :
  let ra := {| hostname := "a.example"; address := "amqps://a" |} in
  let rb := {| hostname := "b.example"; address := "amqps://b" |} in
  let self rs := {| clients := map (fun r => {| name := 0; error := None; redirected := Some r |}) rs;
                    connection := true; auth := "amqps://origin";
                    stopped := false; effects := [] |} in
  _handle_redirect (fun c => (c, false)) [ra; rb] (self [ra; rb])
  = (self [ra; rb],
     Raise (EventHubError
              "Multiple clients attempting to redirect to different hosts."))
  /\ snd (_handle_redirect (fun c => (c, false)) [ra; ra] (self [ra; ra])) = Ok tt
  /\ effects (fst (_handle_redirect (fun c => (c, false)) [ra; ra] (self [ra; ra])))
     = [CreateAuth "amqps://a"; RedirectConnection ra; OpenClient 0; OpenClient 0].
Proof. vm_compute. repeat split. Qed.

(** One of two clients has reported a redirect; the other reports one to the
    same host within the wait: [_handle_redirect] goes through with both.  If
    the wait times out instead, it raises with nothing done but the wait. *)
Example handle_redirect_after_wait :
  let ra := {| hostname := "a.example"; address := "amqps://a" |} in
  let c1 := {| name := 1; error := None; redirected := Some ra |} in
  let c2 := {| name := 2; error := None; redirected := None |} in
  let c2' := {| name := 2; error := None; redirected := Some ra |} in
  let self := {| clients := [c1; c2]; connection := true;
                 auth := "amqps://origin"; stopped := false; effects := [] |} in
  settled (fun _ => (c2', false)) self [ra] = true
  /\ considered (fun _ => (c2', false)) self [ra] = [ra; ra]
  /\ _handle_redirect (fun _ => (c2', false)) [ra] self
     = ({| clients := [c1; c2']; connection := true; auth := "amqps://a";
           stopped := false;
           effects := [CreateAuth "amqps://a"; RedirectConnection ra;
                       OpenClient 1; OpenClient 2] |},
        Ok tt)
  /\ settled (fun c => (c, true)) self [ra] = false
  /\ _handle_redirect (fun c => (c, true)) [ra] self
     = (self,
        Raise (EventHubError
                 "Some clients are attempting to redirect the connection.")).
Proof. vm_compute. repeat split. Qed.

(** All three of five clients fail, one of three fails: the two outcomes the
    theorem tells apart, on concrete clients. *)
Example run_async_all_or_some_failed :
  let ok n := {| name := n; error := None; redirected := None |} in
  let bad n := {| name := n; error := Some (EventHubError "link detached");
                  redirected := None |} in
  let self cs := {| clients := cs; connection := false; auth := "amqps://origin";
                    stopped := false; effects := [] |} in
  let all := run_async (fun c => c) (fun c => (c, false)) (self [bad 1; bad 2]) in
  let some := run_async (fun c => c) (fun c => (c, false)) (self [ok 1; bad 2; ok 3]) in
  snd all = Raise (EventHubError "link detached")
  /\ connection (fst all) = false
  /\ effects (fst all)
     = [CreateConnection; CloseClient 1; CloseClient 2; DestroyConnection]
  /\ snd some = Ok [EventHubError "link detached"]
  /\ connection (fst some) = true
  /\ effects (fst some) = [CreateConnection].
Proof. vm_compute. repeat split. Qed.

End Client.

(* ===================================================================== *)
(** * Partition pump: the intake queue and the consume loop              *)
(* ===================================================================== *)
Module Pump.

(** A received message, as the pump reads it. *)
Record Message := { offset : string; sequence_number : Z; body : nat }.

(** [EventHubPartitionPump] with its [PartitionReceiveHandler]:
    [pump_status] is the status string, [msg_queue] is [None] or the
    [Queue], oldest first; [last_offset] and [last_sn] belong to the handler;
    [processed] logs the batches given to [process_events_async] and
    [client_stops] counts the calls [client.stop()]. *)
Record PumpState := {
  pump_status : string;
  msg_queue : option (list Message);
  last_offset : string;
  last_sn : Z;
  processed : list (list Message);
  client_stops : nat
}.

(** Modelled from the spec: [PartitionPump.is_closing] (the base class,
    [eventhubsprocessor/partition_pump.py], is not among the sources).  The
    pump has been told to close when its status is [Closing] or [Closed]. *)
Definition is_closing (p : PumpState) : bool :=
  String.eqb (pump_status p) "Closing" || String.eqb (pump_status p) "Closed".

(** [PartitionReceiveHandler.on_event_data]: the test reads
    [(not status == "Errored") or status == "IsClosing"]; a queue object is
    true whatever it holds, and [None] is false. *)
Definition on_event_data (m : Message) (p : PumpState) : PumpState :=
  if negb (String.eqb (pump_status p) "Errored")
     || String.eqb (pump_status p) "IsClosing"
  then
    {| pump_status := pump_status p;
       msg_queue := match msg_queue p with
                    | Some q => Some (q ++ [m])
                    | None => None
                    end;
       last_offset := offset m; last_sn := sequence_number m;
       processed := processed p; client_stops := client_stops p |}
  else
    {| pump_status := pump_status p; msg_queue := msg_queue p;
       last_offset := last_offset p; last_sn := last_sn p;
       processed := processed p; client_stops := S (client_stops p) |}.

(** [PartitionReceiver.process_events_async(events)]. *)
Definition process_events_async (events : list Message) (p : PumpState)
  : PumpState :=
  {| pump_status := pump_status p; msg_queue := msg_queue p;
     last_offset := last_offset p; last_sn := last_sn p;
     processed := processed p ++ [events]; client_stops := client_stops p |}.

(** Where the loop of [PartitionReceiver.run] stands: at the [while] test,
    inside the blocking [msg_queue.get()], or past the loop. *)
Inductive Loop := AtTest | InGet | Exited.

Definition take (m : Message) (q : list Message) (p : PumpState) : PumpState :=
  process_events_async [m]
    {| pump_status := pump_status p; msg_queue := Some q;
       last_offset := last_offset p; last_sn := last_sn p;
       processed := processed p; client_stops := client_stops p |}.

(** One move of the loop of [PartitionReceiver.run].  At the test, the loop
    goes on when [not is_closing() or status == "Errored"]; it then skips the
    body when [msg_queue] is [None], and else calls [get()], which hands over
    the oldest message or blocks while the queue is empty. *)
Definition run_move (st : PumpState * Loop) : PumpState * Loop :=
  let '(p, l) := st in
  match l with
  | Exited => (p, Exited)
  | AtTest =>
      if negb (is_closing p) || String.eqb (pump_status p) "Errored" then
        match msg_queue p with
        | Some (m :: q) => (take m q p, AtTest)
        | Some [] => (p, InGet)
        | None => (p, AtTest)
        end
      else (p, Exited)
  | InGet =>
      match msg_queue p with
      | Some (m :: q) => (take m q p, AtTest)
      | _ => (p, InGet)
      end
  end.

(** The pump's two threads: the consume loop moves, or the client's thread
    delivers a message. *)
Inductive Event :=
| Move
| Deliver (m : Message).

Definition step (st : PumpState * Loop) (ev : Event) : PumpState * Loop :=
  match ev with
  | Move => run_move st
  | Deliver m => (on_event_data m (fst st), snd st)
  end.

Definition exec (evs : list Event) (st : PumpState * Loop) : PumpState * Loop :=
  fold_left step evs st.

(** The moves of the consume loop among the events. *)
Fixpoint moves (evs : list Event) : nat :=
  match evs with
  | [] => 0
  | Move :: evs' => S (moves evs')
  | Deliver _ :: evs' => moves evs'
  end.

(** ** An errored pump (C7) *)

Lemma on_event_data_errored (m : Message) (p : PumpState) :
  pump_status p = "Errored"%string ->
  on_event_data m p
  = {| pump_status := pump_status p; msg_queue := msg_queue p;
       last_offset := last_offset p; last_sn := last_sn p;
       processed := processed p; client_stops := S (client_stops p) |}.
Proof. intros H. unfold on_event_data. rewrite H. reflexivity. Qed.

Lemma exec_errored (evs : list Event) :
  forall p q l,
    pump_status p = "Errored"%string ->
    msg_queue p = Some q ->
    l = AtTest \/ (l = InGet /\ q = []) ->
    let '(p', l') := exec evs (p, l) in
    (l' = AtTest \/ l' = InGet)
    /\ pump_status p' = "Errored"%string
    /\ processed p' = processed p ++ map (fun m => [m]) (firstn (moves evs) q)
    /\ msg_queue p' = Some (skipn (moves evs) q).
Proof.
  induction evs as [|ev evs IH]; intros p q l Hs Hq Hl.
  - simpl. rewrite app_nil_r. intuition.
  - destruct ev as [|m].
    + (* the loop moves *)
      change (exec (Move :: evs) (p, l)) with (exec evs (run_move (p, l))).
      cbn [moves].
      destruct Hl as [->|[-> ->]].
      * unfold run_move. rewrite Hs, Hq. rewrite orb_true_r.
        destruct q as [|m q].
        -- specialize (IH p [] InGet Hs Hq (or_intror (conj eq_refl eq_refl))).
           destruct (exec evs (p, InGet)) as [p' l'].
           rewrite firstn_nil, skipn_nil in *. exact IH.
        -- specialize (IH (take m q p) q AtTest Hs eq_refl (or_introl eq_refl)).
           destruct (exec evs (take m q p, AtTest)) as [p' l'].
           destruct IH as (L & S1 & P & Q). repeat split; try assumption.
           rewrite P. cbn. now rewrite <- app_assoc.
      * unfold run_move. rewrite Hq.
        specialize (IH p [] InGet Hs Hq (or_intror (conj eq_refl eq_refl))).
        destruct (exec evs (p, InGet)) as [p' l'].
        rewrite firstn_nil, skipn_nil in *. exact IH.
    + (* a message is delivered *)
      change (exec (Deliver m :: evs) (p, l))
        with (exec evs (on_event_data m p, l)).
      cbn [moves]. rewrite (on_event_data_errored m p Hs).
      match goal with |- context [exec evs (?p1, l)] =>
        specialize (IH p1 q l Hs Hq Hl); destruct (exec evs (p1, l)) as [p' l']
      end.
      exact IH.
Qed.

(** C7, as the code has it.  Take a pump whose status is [Errored], with
    [q] in its intake queue, and any interleaving of moves of the consume
    loop and deliveries from the client's thread.  The loop forwards the
    messages of [q] to the processor one by one, oldest first, one per move;
    no delivered message is put on the queue; the status stays [Errored]; and
    the loop never leaves: it is at its test or, the queue drained, blocked
    in [get()]. *)
Theorem errored_pump_drains_and_keeps_looping
  (p : PumpState) (q : list Message) (evs : list Event) :
  pump_status p = "Errored"%string ->
  msg_queue p = Some q ->
  let '(p', l') := exec evs (p, AtTest) in
  (l' = AtTest \/ l' = InGet)
  /\ pump_status p' = "Errored"%string
  /\ processed p' = processed p ++ map (fun m => [m]) (firstn (moves evs) q)
  /\ msg_queue p' = Some (skipn (moves evs) q).
Proof.
  intros Hs Hq. apply exec_errored; [exact Hs|exact Hq|now left].
Qed.

Lemma errored_pump_drains_and_keeps_looping_witness :
  let m1 := {| offset := "10"; sequence_number := 1; body := 1 |} in
  let m2 := {| offset := "11"; sequence_number := 2; body := 2 |} in
  let m3 := {| offset := "12"; sequence_number := 3; body := 3 |} in
  let p := {| pump_status := "Errored"; msg_queue := Some [m1; m2];
              last_offset := "11"; last_sn := 2; processed := [];
              client_stops := 0 |} in
  let st := exec [Move; Deliver m3; Move; Move; Move] (p, AtTest) in
  pump_status p = "Errored"%string
  /\ msg_queue p = Some [m1; m2]
  /\ (snd st = AtTest \/ snd st = InGet)
  /\ pump_status (fst st) = "Errored"%string
  /\ processed (fst st) = [[m1]; [m2]]
  /\ msg_queue (fst st) = Some [].
Proof.
  intros m1 m2 m3 p st.
  assert (Hs : pump_status p = "Errored"%string) by reflexivity.
  assert (Hq : msg_queue p = Some [m1; m2]) by reflexivity.
  split; [exact Hs|]. split; [exact Hq|].
  exact (@errored_pump_drains_and_keeps_looping p [m1; m2]
           [Move; Deliver m3; Move; Move; Move] Hs Hq).
Defined.

(** C7 as stated fails on termination: an errored pump with two buffered
    messages forwards both, and from then on the loop is blocked in [get()];
    however many moves it is given, it has not left. *)
Lemma errored_pump_loop_does_not_terminate :
  let m1 := {| offset := "10"; sequence_number := 1; body := 1 |} in
  let m2 := {| offset := "11"; sequence_number := 2; body := 2 |} in
  let p := {| pump_status := "Errored"; msg_queue := Some [m1; m2];
              last_offset := "11"; last_sn := 2; processed := [];
              client_stops := 0 |} in
  exec (repeat Move 3) (p, AtTest)
  = ({| pump_status := "Errored"; msg_queue := Some [];
        last_offset := "11"; last_sn := 2; processed := [[m1]; [m2]];
        client_stops := 0 |}, InGet)
  /\ forall n, snd (exec (repeat Move n) (p, AtTest)) <> Exited.
Proof.
  intros m1 m2 p. split; [reflexivity|].
  intros n.
  pose proof (@exec_errored (repeat Move n) p [m1; m2] AtTest
                eq_refl eq_refl (or_introl eq_refl)) as H.
  destruct (exec (repeat Move n) (p, AtTest)) as [p' l'].
  destruct H as ([->| ->] & _); discriminate.
Qed.

End Pump.

(* ===================================================================== *)
(** * [Offset.selector]                                                  *)
(* ===================================================================== *)
Module OffsetFilter.

Local Open Scope Z_scope.

(** What [Offset.value] can be: a [datetime.datetime], held as its distance
    from 1970-01-01 00:00:00 in microseconds, the resolution of [datetime];
    a proton [timestamp], an integer of milliseconds; or a string. *)
Inductive Value :=
| Datetime (us : Z)
| Timestamp (ms : Z)
| Text (s : string).

Record Offset := { value : Value; inclusive : bool }.

(** proton's [Selector(value)], a filter around the expression. *)
Record Selector := { expression : string }.

(** Python's [float] of an integer, exact below 2^53 in size. *)
Definition float_of_Z (z : Z) : float :=
  if z <? 0 then PrimFloat.opp (PrimFloat.of_uint63 (Uint63.of_Z (- z)))
  else PrimFloat.of_uint63 (Uint63.of_Z z).

(** Python's [int] (and [long]) of a finite float: the fraction is dropped. *)
Definition int_of_float (f : float) : Z :=
  match Prim2SF f with
  | S754_finite s m e =>
      let v := if 0 <=? e then Z.pos m * 2 ^ e else Z.pos m / 2 ^ (- e) in
      if s then - v else v
  | _ => 0
  end.

(** [timedelta.total_seconds()]: the microseconds divided by [10**6], as a
    float. *)
Definition total_seconds (us : Z) : float :=
  PrimFloat.div (float_of_Z us) (float_of_Z 1000000).

(** proton's [timestamp(x)]: a [long] made of [x]. *)
Definition timestamp (x : float) : Z := int_of_float x.

(** [str] of an integer, in decimal. *)
Definition str (n : Z) : string := NilZero.string_of_int (Z.to_int n).

(** proton's [utf82unicode], on text. *)
Definition utf82unicode (s : string) : string := s.

(** [timestamp((self.value - epoch).total_seconds() * 1000.0)]. *)
Definition milli_seconds (us : Z) : Z :=
  timestamp (PrimFloat.mul (total_seconds us) (float_of_Z 1000)).

(** [Offset.selector]. *)
Definition selector (o : Offset) : Selector :=
  match value o with
  | Datetime us =>
      {| expression :=
           "amqp.annotation.x-opt-enqueued-time > '" ++ str (milli_seconds us)
           ++ "'" |}
  | Timestamp ms =>
      {| expression :=
           "amqp.annotation.x-opt-enqueued-time > '" ++ str ms ++ "'" |}
  | Text v =>
      let operator := if inclusive o then ">=" else ">" in
      {| expression :=
           "amqp.annotation.x-opt-offset " ++ operator ++ " '"
           ++ utf82unicode v ++ "'" |}
  end%string.

(** The whole milliseconds from the epoch to the datetime, rounded down. *)
Definition floor_millis (us : Z) : Z := us / 1000.

(** [needle in hay]. *)
Fixpoint contains (needle hay : string) : bool :=
  String.prefix needle hay
  || match hay with
     | String _ rest => contains needle rest
     | EmptyString => false
     end.

(** ** The filter strings (C8) *)

(** C8 on the code.  For a string offset [v] the expression is
    [amqp.annotation.x-opt-offset >= 'v'] when inclusive and
    [amqp.annotation.x-opt-offset > 'v'] when not; for a datetime the
    expression is [amqp.annotation.x-opt-enqueued-time > '<m>'] with [<m>]
    the decimal of [milli_seconds].  That number is the floor of the epoch
    milliseconds at 2017-10-02 18:24:56.002, but not at 2004-06-01
    00:00:00.001, nor 1.001 seconds after the epoch: the product of the
    seconds, a float, with 1000.0 falls just short of the whole millisecond,
    and [timestamp] drops the fraction; the expression then holds the
    millisecond before and not the floor. *)
Theorem selector_expressions :
  (forall v,
      expression (selector {| value := Text v; inclusive := true |})
      = ("amqp.annotation.x-opt-offset >= '" ++ v ++ "'")%string)
  /\ (forall v,
      expression (selector {| value := Text v; inclusive := false |})
      = ("amqp.annotation.x-opt-offset > '" ++ v ++ "'")%string)
  /\ (forall us b,
      expression (selector {| value := Datetime us; inclusive := b |})
      = ("amqp.annotation.x-opt-enqueued-time > '" ++ str (milli_seconds us)
         ++ "'")%string)
  /\ (floor_millis 1506968696002000 = 1506968696002
      /\ expression (selector {| value := Datetime 1506968696002000;
                                 inclusive := false |})
         = "amqp.annotation.x-opt-enqueued-time > '1506968696002'"%string)
  /\ (floor_millis 1086048000001000 = 1086048000001
      /\ expression (selector {| value := Datetime 1086048000001000;
                                 inclusive := false |})
         = "amqp.annotation.x-opt-enqueued-time > '1086048000000'"%string
      /\ contains "1086048000001"
           (expression (selector {| value := Datetime 1086048000001000;
                                    inclusive := false |})) = false)
  /\ (floor_millis 1001000 = 1001
      /\ expression (selector {| value := Datetime 1001000; inclusive := false |})
         = "amqp.annotation.x-opt-enqueued-time > '1000'"%string
      /\ contains "1001"
           (expression (selector {| value := Datetime 1001000;
                                    inclusive := false |})) = false).
Proof.
  split; [reflexivity|]. split; [reflexivity|]. split; [reflexivity|].
  vm_compute. repeat split.
Qed.

End OffsetFilter.

(* ===================================================================== *)
(** * More on the sender side                                            *)
(* ===================================================================== *)
Module SenderFacts.

Import Sender.

Local Unset Implicit Arguments.

(** [ClientHandler._get_link_name]: ["%s:%d" % (self.name, self.iteration)]. *)
Definition _get_link_name (name : string) (it : nat) : string :=
  (name ++ ":" ++ NilEmpty.string_of_uint (Nat.to_uint it))%string.

(** The keys of the dict, in order. *)
Definition keys (d : Deliveries) : list nat := map fst d.

(** The dict is one: no key twice, and every key made by the link already. *)
Definition keyed (s : SenderHandler) : Prop :=
  keys_below (next_tag s) (deliveries s) /\ NoDup (keys (deliveries s)).

(** The deliveries [check_timeout] finds overdue at [now]. *)
Definition overdue (now : Z) (kv : nat * DeliveryEvent) : bool :=
  (TIMEOUT <=? elapsed now (snd kv))%Z.

(** Every delivery on the dict has its timeout check scheduled. *)
Definition watched (s : SenderHandler) : Prop :=
  deliveries s = [] \/ tracker_task s = true.

(** The link, if there is one, was made in an iteration that has begun. *)
Definition link_is_current_or_older (s : SenderHandler) : Prop :=
  match link s with
  | Some l => link_iteration l <= iteration s
  | None => True
  end.

(** ** The loop of [on_sendable], in closed form *)

Lemma on_sendable_loop_closed (q : list DeliveryEvent) :
  forall cr d tag,
    keys_below tag d ->
    on_sendable_loop cr q d tag
    = (cr - Nat.min cr (List.length q),
       skipn (Nat.min cr (List.length q)) q,
       d ++ combine (seq tag (Nat.min cr (List.length q)))
              (firstn (Nat.min cr (List.length q)) q),
       tag + Nat.min cr (List.length q)).
Proof.
  induction q as [|e q IH]; intros cr d tag H.
  - destruct cr; simpl; now rewrite app_nil_r, Nat.add_0_r.
  - destruct cr as [|cr].
    + simpl. now rewrite app_nil_r, Nat.add_0_r.
    + cbn [on_sendable_loop]. rewrite (dict_set_fresh e H).
      rewrite IH.
      * cbn [List.length Nat.min Nat.sub skipn firstn seq combine].
        rewrite <- app_assoc. cbn [app]. f_equal. lia.
      * apply Forall_app; split.
        -- eapply keys_below_mono; [|exact H]. lia.
        -- constructor; [simpl; lia|constructor].
Qed.

Lemma keys_app (d1 d2 : Deliveries) : keys (d1 ++ d2) = keys d1 ++ keys d2.
Proof. unfold keys. apply map_app. Qed.

Lemma keys_combine (tag k : nat) (q : list DeliveryEvent) :
  k <= List.length q -> keys (combine (seq tag k) (firstn k q)) = seq tag k.
Proof.
  revert tag q. induction k as [|k IH]; intros tag q H; [reflexivity|].
  destruct q as [|e q]; [simpl in H; lia|].
  cbn [seq firstn combine keys map fst]. f_equal.
  apply IH. simpl in H. lia.
Qed.

Lemma records_combine (tag k : nat) (q : list DeliveryEvent) :
  map snd (combine (seq tag k) (firstn k q)) = firstn k q.
Proof.
  revert tag q. induction k as [|k IH]; intros tag q; [reflexivity|].
  destruct q as [|e q]; [reflexivity|].
  cbn [seq firstn combine map snd]. f_equal. apply IH.
Qed.

Lemma keys_below_in (n : nat) (d : Deliveries) (k : nat) :
  keys_below n d -> In k (keys d) -> k < n.
Proof.
  unfold keys_below, keys. intros H Hin. apply in_map_iff in Hin.
  destruct Hin as [[k' v] [<- Hin]]. rewrite Forall_forall in H.
  exact (H _ Hin).
Qed.

Lemma keyed_append (n k : nat) (d : Deliveries) (q : list DeliveryEvent) :
  k <= List.length q ->
  keys_below n d -> NoDup (keys d) ->
  keys_below (n + k) (d ++ combine (seq n k) (firstn k q))
  /\ NoDup (keys (d ++ combine (seq n k) (firstn k q))).
Proof.
  intros Hk Hb Hn. split.
  - apply Forall_app. split.
    + eapply keys_below_mono; [|exact Hb]. lia.
    + apply Forall_forall. intros [k' v] Hin.
      assert (In k' (keys (combine (seq n k) (firstn k q))))
        by (unfold keys; apply in_map_iff; now exists (k', v)).
      rewrite keys_combine in H by exact Hk. apply in_seq in H. simpl. lia.
  - rewrite keys_app, keys_combine by exact Hk.
    apply NoDup_app; [exact Hn|apply seq_NoDup|].
    intros x Hx Hs. apply in_seq in Hs.
    pose proof (@keys_below_in n d x Hb Hx). lia.
Qed.

(** ** [pop] on a dict without repeated keys *)

Lemma dict_pop_cases (k : nat) (d : Deliveries) :
  (~ In k (keys d) /\ dict_pop k d = (None, d))
  \/ exists pre v post,
       d = pre ++ (k, v) :: post /\ ~ In k (keys pre)
       /\ dict_pop k d = (Some v, pre ++ post).
Proof.
  induction d as [|[k' v'] d IH]; [left; split; [intros []|reflexivity]|].
  cbn [dict_pop]. destruct (Nat.eqb_spec k' k) as [->|Hne].
  - right. exists [], v', d. repeat split. intros [].
  - destruct IH as [[Hn ->]|(pre & v & post & -> & Hn & ->)].
    + left. split; [|reflexivity]. intros [H|H]; [now apply Hne|now apply Hn].
    + right. exists ((k', v') :: pre), v, post. repeat split.
      intros [H|H]; [now apply Hne|now apply Hn].
Qed.

Lemma nodup_middle (k : nat) (v : DeliveryEvent) (pre post : Deliveries) :
  NoDup (keys (pre ++ (k, v) :: post)) ->
  NoDup (keys (pre ++ post)) /\ ~ In k (keys (pre ++ post)).
Proof.
  rewrite !keys_app. cbn [keys map fst]. intros H.
  split; [exact (NoDup_remove_1 _ _ _ H)|exact (NoDup_remove_2 _ _ _ H)].
Qed.

Lemma dict_pop_nodup (k : nat) (d : Deliveries) :
  NoDup (keys d) ->
  NoDup (keys (snd (dict_pop k d))) /\ ~ In k (keys (snd (dict_pop k d))).
Proof.
  intros H. destruct (dict_pop_cases k d) as [[Hn ->]|(pre & v & post & -> & Hn & ->)].
  - now split.
  - cbn [snd]. now apply (nodup_middle k v pre post).
Qed.

Lemma dict_pop_again (k : nat) (d : Deliveries) :
  NoDup (keys d) ->
  dict_pop k (snd (dict_pop k d)) = (None, snd (dict_pop k d)).
Proof.
  intros H. destruct (dict_pop_nodup k d H) as [_ Hn].
  destruct (dict_pop_cases k (snd (dict_pop k d)))
    as [[_ E]|(pre & v & post & E & _ & _)]; [exact E|].
  exfalso. apply Hn. rewrite E, keys_app. apply in_or_app. right. now left.
Qed.

(** ** The second loop of [check_timeout], in closed form *)

Definition timed_out_completion (ref : string) (kv : nat * DeliveryEvent)
  : Completion :=
  complete (snd kv) RELEASED (Some (timeout_condition ref)).

Lemma expire_closed (now : Z) (ref : string) (d : Deliveries) :
  forall pre cs eff,
    NoDup (keys (pre ++ d)) ->
    expire (keys (filter (overdue now) d)) ref (pre ++ d) cs eff
    = (pre ++ filter (fun kv => negb (overdue now kv)) d,
       cs ++ map (timed_out_completion ref) (filter (overdue now) d),
       eff ++ flat_map (fun kv => [UpdateReleased (fst kv); Settle (fst kv)])
                (filter (overdue now) d)).
Proof.
  induction d as [|[k v] d IH]; intros pre cs eff H.
  - simpl. now rewrite !app_nil_r.
  - cbn [filter]. destruct (overdue now (k, v)) eqn:O; cbn [negb].
    + cbn [keys map fst expire].
      destruct (dict_pop_cases k (pre ++ (k, v) :: d))
        as [[Hn _]|(pre' & v' & post' & E & Hn & P)].
      * exfalso. apply Hn. rewrite keys_app. apply in_or_app. right. now left.
      * assert (Hpre : ~ In k (keys pre)).
        { rewrite keys_app in H. apply NoDup_remove_2 in H.
          intros Hin. apply H. apply in_or_app. now left. }
        assert (P' : dict_pop k (pre ++ (k, v) :: d) = (Some v, pre ++ d)).
        { clear - Hpre. induction pre as [|[k1 v1] pre IHp]; cbn [app dict_pop].
          - now rewrite Nat.eqb_refl.
          - destruct (Nat.eqb_spec k1 k) as [->|Hne].
            + exfalso. apply Hpre. now left.
            + rewrite IHp; [reflexivity|]. intros Hin. apply Hpre. now right. }
        rewrite P'. rewrite IH by (now apply (nodup_middle k v pre d)).
        cbn [map flat_map fst]. unfold timed_out_completion at 2. cbn [snd].
        now rewrite <- !app_assoc.
    + replace (pre ++ (k, v) :: d) with ((pre ++ [(k, v)]) ++ d)
        by now rewrite <- app_assoc.
      rewrite IH by (now rewrite <- app_assoc).
      now rewrite <- app_assoc.
Qed.

Lemma nodup_filter_keys (f : nat * DeliveryEvent -> bool) (d : Deliveries) :
  NoDup (keys d) -> NoDup (keys (filter f d)).
Proof.
  induction d as [|[k v] d IH]; intros H; [constructor|].
  cbn [keys map fst] in H. inversion H as [|? ? Hn Hd]; subst.
  cbn [filter]. destruct (f (k, v)); [|now apply IH].
  cbn [keys map fst]. constructor; [|now apply IH].
  intros Hin. apply Hn. unfold keys in *. apply in_map_iff in Hin.
  destruct Hin as [x [Hx Hf]]. apply filter_In in Hf as [Hf _].
  apply in_map_iff. now exists x.
Qed.

Lemma keys_below_filter (n : nat) (f : nat * DeliveryEvent -> bool)
  (d : Deliveries) :
  keys_below n d -> keys_below n (filter f d).
Proof.
  unfold keys_below. rewrite !Forall_forall. intros H x Hx.
  apply filter_In in Hx as [Hx _]. now apply H.
Qed.

(** ** [on_sendable], read off its loop *)

Lemma on_sendable_closed (s : SenderHandler) :
  keys_below (next_tag s) (deliveries s) ->
  completions (on_sendable s) = completions s
  /\ match link s with
     | Some l =>
         let k := Nat.min (credit l) (List.length (queue s)) in
         queue (on_sendable s) = skipn k (queue s)
         /\ deliveries (on_sendable s)
            = deliveries s ++ combine (seq (next_tag s) k) (firstn k (queue s))
         /\ next_tag (on_sendable s) = next_tag s + k
         /\ link (on_sendable s)
            = Some {| link_iteration := link_iteration l;
                      credit := credit l - k |}
     | None =>
         queue (on_sendable s) = queue s
         /\ deliveries (on_sendable s) = deliveries s
         /\ next_tag (on_sendable s) = next_tag s
         /\ link (on_sendable s) = None
     end.
Proof.
  intros H. unfold on_sendable. destruct (link s) as [l|].
  - rewrite (on_sendable_loop_closed (queue s) (credit l) _ _ H).
    destruct (deliveries s ++ _); [|destruct (track _ _)]; cbn; repeat split.
  - destruct (deliveries s); [|destruct (track _ _)]; cbn; repeat split.
Qed.

Lemma on_sendable_watched (s : SenderHandler) : watched (on_sendable s).
Proof.
  unfold watched, on_sendable.
  destruct (link s) as [l|].
  - destruct (on_sendable_loop _ _ _ _) as [[[cr q] d] tag].
    destruct d; [now left|right].
    unfold track. destruct (tracker_task s); reflexivity.
  - destruct (deliveries s); [now left|right].
    unfold track. destruct (tracker_task s); reflexivity.
Qed.

(** ** Invariants along every run *)

Lemma keyed_ext (s t : SenderHandler) :
  deliveries t = deliveries s -> next_tag t = next_tag s ->
  keyed s -> keyed t.
Proof. unfold keyed. intros -> ->. exact (fun H => H). Qed.

Lemma keyed_on_sendable (s : SenderHandler) : keyed s -> keyed (on_sendable s).
Proof.
  intros [Hb Hn]. destruct (on_sendable_closed s Hb) as [_ C].
  unfold keyed. destruct (link s) as [l|].
  - destruct C as (_ & -> & -> & _).
    apply keyed_append; [apply Nat.le_min_r|exact Hb|exact Hn].
  - destruct C as (_ & -> & -> & _). now split.
Qed.

Lemma keyed_on_delivery dlv u rs rc (s : SenderHandler) :
  keyed s -> keyed (on_delivery dlv u rs rc s).
Proof.
  intros [Hb Hn]. unfold on_delivery. destruct u; [|now split].
  pose proof (dict_pop_keys dlv Hb) as K.
  destruct (dict_pop_nodup dlv _ Hn) as [N _].
  destruct (dict_pop dlv (deliveries s)) as [found d]. now split.
Qed.

Lemma check_timeout_closed (now : Z) (s : SenderHandler) :
  keyed s ->
  check_timeout now s
  = on_sendable
      {| link := link s; iteration := iteration s; queue := queue s;
         deliveries := filter (fun kv => negb (overdue now kv)) (deliveries s);
         tracker_task := tracker_task s; client_stopped := client_stopped s;
         remote_container := remote_container s;
         next_rid := next_rid s; next_tag := next_tag s;
         completions :=
           completions s
           ++ map (timed_out_completion (remote_container s))
                (filter (overdue now) (deliveries s));
         effects :=
           effects s
           ++ flat_map (fun kv => [UpdateReleased (fst kv); Settle (fst kv)])
                (filter (overdue now) (deliveries s)) |}.
Proof.
  intros [_ Hn]. unfold check_timeout.
  change (expired_keys now (deliveries s))
    with (keys (filter (overdue now) (deliveries s))).
  change (deliveries s) with ([] ++ deliveries s) at 2.
  rewrite (expire_closed now _ (deliveries s) [] _ _ Hn). reflexivity.
Qed.

Lemma keyed_check_timeout (now : Z) (s : SenderHandler) :
  keyed s -> keyed (check_timeout now s).
Proof.
  intros H. rewrite (check_timeout_closed now s H).
  apply keyed_on_sendable. destruct H as [Hb Hn]. split; cbn.
  - now apply keys_below_filter.
  - now apply nodup_filter_keys.
Qed.

Lemma keyed_on_link_closed condition (s : SenderHandler) :
  keyed (on_link_closed condition s).
Proof.
  unfold keyed, on_link_closed. destruct (tracker_stop _ _).
  cbn. split; constructor.
Qed.

Lemma keyed_step (s : SenderHandler) (ev : Event) : keyed s -> keyed (step s ev).
Proof.
  intros H. destruct ev; cbn [step].
  - eapply keyed_ext; [..|exact H]; reflexivity.
  - eapply keyed_ext; [..|exact H]; reflexivity.
  - now apply keyed_on_sendable.
  - unfold grant_credit. destruct (link s); [|exact H].
    eapply keyed_ext; [..|exact H]; reflexivity.
  - now apply keyed_on_delivery.
  - unfold tracker_on_timer_task. destruct (tracker_task s); [|exact H].
    apply keyed_check_timeout. eapply keyed_ext; [..|exact H]; reflexivity.
  - unfold on_link_remote_close. destruct local_closed; [exact H|].
    match goal with
    | |- context [on_link_closed condition ?s0] =>
        eapply keyed_ext; [..|exact (keyed_on_link_closed condition s0)];
          reflexivity
    end.
  - unfold stop, on_stop.
    pose proof (keyed_on_link_closed condition s) as K.
    destruct (link (on_link_closed condition s)); [|exact K].
    eapply keyed_ext; [..|exact K]; reflexivity.
  - unfold on_stop_client, stop, on_stop.
    match goal with
    | |- context [on_link_closed None ?s0] =>
        pose proof (keyed_on_link_closed None s0) as K;
        destruct (link (on_link_closed None s0)); [|exact K];
        eapply keyed_ext; [..|exact K]; reflexivity
    end.
  - unfold on_timer_task. destruct (link s); [exact H|].
    destruct (client_stopped s); [exact H|].
    eapply keyed_ext; [..|exact H]; reflexivity.
Qed.

Lemma keyed_run (evs : list Event) :
  forall s, keyed s -> keyed (run evs s).
Proof.
  unfold run. induction evs as [|ev evs IH]; intros s H; [exact H|].
  cbn [fold_left]. apply IH. now apply keyed_step.
Qed.

Lemma keyed_init (c : string) : keyed (init c).
Proof. split; constructor. Qed.

Lemma watched_step (s : SenderHandler) (ev : Event) :
  watched s -> watched (step s ev).
Proof.
  intros H. destruct ev; cbn [step]; try exact H.
  - apply on_sendable_watched.
  - unfold grant_credit. destruct (link s); exact H.
  - unfold on_delivery. destruct updated; [|exact H].
    destruct H as [E|T].
    + rewrite E. now left.
    + destruct (dict_pop dlv (deliveries s)). now right.
  - unfold tracker_on_timer_task. destruct (tracker_task s); [|exact H].
    unfold check_timeout. destruct (expire _ _ _ _ _) as [[d cs] eff].
    apply on_sendable_watched.
  - unfold on_link_remote_close. destruct local_closed; [exact H|].
    unfold watched, on_link_closed, tracker_stop. cbn [tracker_task effects].
    destruct (tracker_task s); now left.
  - unfold stop, on_stop, watched, on_link_closed, tracker_stop.
    destruct (tracker_task s); cbn; destruct (link s); now left.
  - unfold on_stop_client, stop, on_stop, watched, on_link_closed, tracker_stop.
    cbn. destruct (tracker_task s); cbn; destruct (link s); now left.
  - unfold on_timer_task. destruct (link s); [exact H|].
    destruct (client_stopped s); exact H.
Qed.

Lemma link_on_sendable (s : SenderHandler) :
  iteration (on_sendable s) = iteration s
  /\ match link s with
     | Some l => exists cr, link (on_sendable s)
                            = Some {| link_iteration := link_iteration l;
                                      credit := cr |}
     | None => link (on_sendable s) = None
     end.
Proof.
  unfold on_sendable. destruct (link s) as [l|].
  - destruct (on_sendable_loop _ _ _ _) as [[[cr q] d] tag].
    destruct d; [|destruct (track _ _)]; cbn; (split; [reflexivity|now exists cr]).
  - destruct (deliveries s); [|destruct (track _ _)]; cbn; now split.
Qed.

Lemma current_ext (s t : SenderHandler) :
  link t = link s -> iteration t = iteration s ->
  link_is_current_or_older s ->
  iteration s <= iteration t /\ link_is_current_or_older t.
Proof.
  unfold link_is_current_or_older. intros -> ->. split; [lia|assumption].
Qed.

Lemma current_on_sendable (s : SenderHandler) :
  link_is_current_or_older s ->
  iteration s <= iteration (on_sendable s)
  /\ link_is_current_or_older (on_sendable s).
Proof.
  unfold link_is_current_or_older. intros H.
  destruct (link_on_sendable s) as [I L]. rewrite I. split; [lia|].
  destruct (link s) as [l|]; [destruct L as [cr ->]; exact H|now rewrite L].
Qed.

Lemma current_dropped (s t : SenderHandler) :
  link t = None -> iteration t = iteration s ->
  iteration s <= iteration t /\ link_is_current_or_older t.
Proof.
  unfold link_is_current_or_older. intros -> ->. split; [lia|exact I].
Qed.

Lemma iteration_step (s : SenderHandler) (ev : Event) :
  link_is_current_or_older s ->
  iteration s <= iteration (step s ev) /\ link_is_current_or_older (step s ev).
Proof.
  intros H.
  assert (same : forall t, link t = link s -> iteration t = iteration s ->
                   iteration s <= iteration t /\ link_is_current_or_older t)
    by (intros t L I; exact (current_ext s t L I H)).
  pose proof (current_dropped s) as dropped.
  destruct ev; cbn [step].
  - unfold link_is_current_or_older. cbn. lia.
  - now apply same.
  - now apply current_on_sendable.
  - unfold grant_credit. destruct (link s) as [l|] eqn:E.
    + unfold link_is_current_or_older in *. rewrite E in H. cbn. lia.
    + apply same; [now rewrite E|reflexivity].
  - unfold on_delivery. destruct updated; [|now apply same].
    destruct (dict_pop _ _). now apply same.
  - unfold tracker_on_timer_task.
    destruct (tracker_task s); [|now apply same].
    unfold check_timeout. cbn [remote_container deliveries completions effects].
    destruct (expire _ _ _ _ _) as [[d cs] eff].
    match goal with
    | |- context [on_sendable ?s0] =>
        destruct (current_on_sendable s0) as [L C]; [exact H|]; now split
    end.
  - unfold on_link_remote_close. destruct local_closed; [now apply same|].
    clear same dropped. unfold link_is_current_or_older in *.
    unfold on_link_closed, tracker_stop. cbn [tracker_task effects].
    destruct (tracker_task s); cbn [link iteration]; (split; [lia|]);
      (destruct (is_fatal condition); [exact H|];
       destruct (link s) as [l|] eqn:E; [|exact I];
       destruct (Nat.eqb (link_iteration l) it); [exact I|exact H]).
  - unfold stop, on_stop, on_link_closed, tracker_stop.
    destruct (tracker_task s); cbn [link]; destruct (link s) eqn:E;
      (apply dropped; [try exact E; reflexivity|reflexivity]).
  - unfold on_stop_client, stop, on_stop, on_link_closed, tracker_stop.
    cbn [tracker_task effects link].
    destruct (tracker_task s); cbn [link]; destruct (link s) eqn:E;
      (apply dropped; [try exact E; reflexivity|reflexivity]).
  - unfold on_timer_task. destruct (link s) as [l|] eqn:E;
      [apply same; [now rewrite E|reflexivity]|].
    destruct (client_stopped s); [apply same; [now rewrite E|reflexivity]|].
    unfold link_is_current_or_older. cbn. lia.
Qed.

Lemma iteration_run (evs : list Event) :
  forall s, link_is_current_or_older s ->
    iteration s <= iteration (run evs s) /\ link_is_current_or_older (run evs s).
Proof.
  unfold run. induction evs as [|ev evs IH]; intros s H;
    [cbn [fold_left]; split; [lia|exact H]|].
  cbn [fold_left]. destruct (iteration_step s ev H) as [L C].
  destruct (IH _ C) as [L' C']. split; [lia|exact C'].
Qed.

Lemma string_app_inv (a x y : string) :
  (a ++ x)%string = (a ++ y)%string -> x = y.
Proof.
  induction a as [|ch a IH]; cbn; intros H; [exact H|].
  injection H as H. now apply IH.
Qed.

Lemma link_name_inj (name : string) (i j : nat) :
  _get_link_name name i = _get_link_name name j -> i = j.
Proof.
  unfold _get_link_name. intros H.
  apply string_app_inv in H. apply (string_app_inv ":") in H.
  apply DecimalNat.Unsigned.to_uint_inj.
  pose proof (NilEmpty.usu (Nat.to_uint i)) as Ui.
  pose proof (NilEmpty.usu (Nat.to_uint j)) as Uj.
  rewrite H in Ui. rewrite Ui in Uj. now injection Uj.
Qed.

(** ** What the sender side guarantees *)

(** X1.  [on_sendable] hands the pending records to the link oldest first,
    as many as the link has credit for and the queue holds: they leave the
    front of the queue, are filed at the end of the dict under the deliveries
    the link makes next, and each uses up one credit.  Without a link nothing
    moves. *)
Theorem on_sendable_transfers_oldest_first (c : string) (evs : list Event) :
  let s := run evs (init c) in
  match link s with
  | Some l =>
      let k := Nat.min (credit l) (List.length (queue s)) in
      queue (on_sendable s) = skipn k (queue s)
      /\ map snd (deliveries (on_sendable s))
         = map snd (deliveries s) ++ firstn k (queue s)
      /\ keys (deliveries (on_sendable s))
         = keys (deliveries s) ++ seq (next_tag s) k
      /\ link (on_sendable s)
         = Some {| link_iteration := link_iteration l; credit := credit l - k |}
  | None =>
      queue (on_sendable s) = queue s
      /\ deliveries (on_sendable s) = deliveries s
  end.
Proof.
  intros s.
  destruct (keyed_run evs (init c) (keyed_init c)) as [Hb _]. fold s in Hb.
  destruct (on_sendable_closed s Hb) as [_ C].
  destruct (link s) as [l|].
  - destruct C as (Q & D & _ & L). cbn zeta. rewrite Q, D, L.
    rewrite map_app, keys_app, records_combine, keys_combine
      by apply Nat.le_min_r.
    repeat split.
  - destruct C as (Q & D & _). now split.
Qed.

(** X2.  After every sequence of reactor events, if a delivery is on the
    dict then the tracker's timeout check is scheduled. *)
Theorem outstanding_deliveries_are_watched (c : string) (evs : list Event) :
  let s := run evs (init c) in
  deliveries s = [] \/ tracker_task s = true.
Proof.
  cbn zeta. change (watched (run evs (init c))).
  assert (G : forall s, watched s -> watched (run evs s)).
  { unfold run. induction evs as [|ev evs IH]; intros s H; [exact H|].
    cbn [fold_left]. apply IH. now apply watched_step. }
  apply G. now left.
Qed.

(** X3.  [check_timeout] completes exactly the deliveries that are 60
    seconds old or older, in dict order, each as released with the timeout
    condition; the younger ones stay on the dict, in order, ahead of whatever
    the flush at the end transfers. *)
Theorem check_timeout_completes_the_overdue
  (c : string) (evs : list Event) (now : Z) :
  let s := run evs (init c) in
  completions (check_timeout now s)
  = completions s
    ++ map (timed_out_completion (remote_container s))
         (filter (overdue now) (deliveries s))
  /\ exists newly,
       deliveries (check_timeout now s)
       = filter (fun kv => negb (overdue now kv)) (deliveries s) ++ newly.
Proof.
  intros s.
  pose proof (keyed_run evs (init c) (keyed_init c)) as K. fold s in K.
  rewrite (check_timeout_closed now s K).
  match goal with
  | |- context [on_sendable ?s0] =>
      destruct (on_sendable_closed s0) as [C D];
        [cbn; apply keys_below_filter; exact (proj1 K)|]
  end.
  split; [rewrite C; reflexivity|].
  cbn [link queue deliveries next_tag] in D.
  destruct (link s) as [l|].
  - destruct D as (_ & -> & _). eexists. reflexivity.
  - destruct D as (_ & -> & _). exists []. now rewrite app_nil_r.
Qed.

(** X4.  An acknowledgment that comes a second time for the same delivery
    completes nothing and leaves the dict as it is. *)
Theorem repeated_acknowledgment_completes_nothing
  (c : string) (evs : list Event) (dlv : nat)
  (rs1 rs2 : DeliveryState) (rc1 rc2 : option Condition) :
  let s1 := on_delivery dlv true rs1 rc1 (run evs (init c)) in
  completions (on_delivery dlv true rs2 rc2 s1) = completions s1
  /\ deliveries (on_delivery dlv true rs2 rc2 s1) = deliveries s1
  /\ queue (on_delivery dlv true rs2 rc2 s1) = queue s1.
Proof.
  intros s1.
  destruct (keyed_run evs (init c) (keyed_init c)) as [_ Hn].
  pose proof (dict_pop_again dlv _ Hn) as A.
  assert (D1 : deliveries s1
               = snd (dict_pop dlv (deliveries (run evs (init c))))).
  { subst s1. unfold on_delivery. clear A.
    destruct (dict_pop dlv (deliveries (run evs (init c)))). reflexivity. }
  clearbody s1. unfold on_delivery. rewrite D1, A. cbn. repeat split.
Qed.

(** X5.  [stop] is idempotent: a second [stop], with whatever condition,
    changes nothing. *)
Theorem stop_twice_is_stop_once
  (c1 c2 : option Condition) (s : SenderHandler) :
  stop c2 (stop c1 s) = stop c1 s.
Proof.
  unfold stop, on_stop, on_link_closed, tracker_stop.
  destruct (tracker_task s); cbn; destruct (link s); cbn;
    now rewrite app_nil_r.
Qed.

(** X6.  Link names are not reused: two iterations give the same link name
    only if they are the same iteration; the iteration never goes down, every
    start raises it by one, and the link a handler holds was made in an
    iteration no later than the current one. *)
Theorem link_names_are_not_reused
  (name c : string) (evs1 evs2 : list Event) (i j : nat) :
  String.eqb (_get_link_name name i) (_get_link_name name j) = Nat.eqb i j
  /\ let s1 := run evs1 (init c) in
     let s2 := run evs2 s1 in
     iteration s1 <= iteration s2
     /\ iteration (start_handler s2) = S (iteration s2)
     /\ link_is_current_or_older s2.
Proof.
  split.
  - destruct (Nat.eqb_spec i j) as [->|Hne]; [apply String.eqb_refl|].
    apply String.eqb_neq. intros H. apply Hne. exact (link_name_inj name i j H).
  - cbn zeta.
    destruct (iteration_run evs1 (init c) I) as [_ C1].
    destruct (iteration_run evs2 _ C1) as [L2 C2].
    repeat split; assumption.
Qed.

(** ** Delivery records complete at most once (C1) *)

Lemma dict_pop_found (k : nat) (e : DeliveryEvent) (d : Deliveries) :
  NoDup (keys d) -> In (k, e) d -> fst (dict_pop k d) = Some e.
Proof.
  intros N H.
  destruct (dict_pop_cases k d) as [[Hn _]|(pre & v & post & E & Hn & P)].
  - exfalso. apply Hn. unfold keys. apply in_map_iff. now exists (k, e).
  - rewrite P. cbn [fst]. f_equal. subst d.
    destruct (nodup_middle k v pre post N) as [_ M].
    apply in_app_or in H. destruct H as [H|[H|H]].
    + exfalso. apply Hn. unfold keys. apply in_map_iff. now exists (k, e).
    + now injection H.
    + exfalso. apply M. rewrite keys_app. apply in_or_app. right.
      unfold keys. apply in_map_iff. now exists (k, e).
Qed.

(** C1, as the code has it.  After every sequence of reactor events, every
    record registered by [send] is in exactly one place: still on the pending
    queue, on the deliveries dict, or completed once; so no record is ever
    completed twice, and a record has exactly one completion as soon as it is
    neither queued nor in flight.  Only records on the dict are completed:
    [on_link_closed] completes all of them, as released with the closing
    condition; [check_timeout] completes the overdue ones and no other, as
    released with the timeout condition; [on_delivery] completes the record
    filed under the acknowledged delivery with the remote state, and nothing
    when the delivery is not on the dict or not updated.  None of the three
    completes a record that is still on the pending queue. *)
Theorem delivery_record_completes_at_most_once
  (c : string) (evs : list Event) (r : nat) :
  let s := run evs (init c) in
  in_queue r s + in_flight r s + completed r s
    = (if registered r s then 1 else 0)
  /\ completed r s <= 1
  /\ (registered r s = true -> in_queue r s = 0 -> in_flight r s = 0 ->
      completed r s = 1)
  /\ (forall condition,
        completions (on_link_closed condition s)
        = completions s
          ++ map (fun kv => complete (snd kv) RELEASED condition) (deliveries s))
  /\ (forall now,
        completions (check_timeout now s)
        = completions s
          ++ map (timed_out_completion (remote_container s))
               (filter (overdue now) (deliveries s)))
  /\ (forall dlv rs rc,
        (forall e, In (dlv, e) (deliveries s) ->
           completions (on_delivery dlv true rs rc s)
           = completions s ++ [complete e rs rc])
        /\ (~ In dlv (keys (deliveries s)) ->
            completions (on_delivery dlv true rs rc s) = completions s)
        /\ on_delivery dlv false rs rc s = s)
  /\ (0 < in_queue r s ->
      forall condition now dlv u rs rc,
        completed r (on_link_closed condition s) = 0
        /\ completed r (check_timeout now s) = 0
        /\ completed r (on_delivery dlv u rs rc s) = 0).
Proof.
  intros s.
  assert (A : accounted s) by (apply accounted_run, accounted_init).
  pose proof (keyed_run evs (init c) (keyed_init c)) as K. fold s in K.
  clearbody s. pose proof (proj2 A r) as Hc.
  split; [exact Hc|].
  split; [destruct (registered r s); lia|].
  split; [intros R Q F; rewrite R in Hc; lia|].
  split.
  { intros condition. unfold on_link_closed.
    destruct (tracker_stop _ _). reflexivity. }
  split.
  { intros now. rewrite (check_timeout_closed now s K).
    match goal with
    | |- context [on_sendable ?s0] =>
        destruct (on_sendable_closed s0) as [C _];
          [cbn; apply keys_below_filter; exact (proj1 K)|]
    end.
    rewrite C. reflexivity. }
  split.
  { intros dlv rs rc. split; [|split; [|reflexivity]].
    - intros e H. pose proof (dict_pop_found dlv e _ (proj2 K) H) as P.
      unfold on_delivery.
      destruct (dict_pop dlv (deliveries s)) as [found d].
      cbn [fst] in P. subst found. reflexivity.
    - intros H. unfold on_delivery.
      destruct (dict_pop_cases dlv (deliveries s))
        as [[_ ->]|(pre & v & post & E & _ & _)]; [reflexivity|].
      exfalso. apply H. rewrite E, keys_app. apply in_or_app. right. now left. }
  intros Q condition now dlv u rs rc.
  pose proof (completed_on_link_closed r condition s) as L.
  pose proof (@completed_check_timeout r now s A) as T.
  pose proof (completed_on_delivery r dlv u rs rc s) as D.
  destruct (registered r s); lia.
Qed.

(** Two records transferred at times 0 and 50: the acknowledgment of the
    first completes it as accepted; the timeout check at 60 completes the
    first, overdue, and leaves the second; the link closing completes both. *)
Example acknowledged_overdue_and_released :
  let s := run [EvStart; EvCredit 2; EvSend 7 0 0%Z; EvSend 8 1 50%Z; EvSendable]
             (init "broker") in
  map (fun x => (c_rid x, c_outcome x))
    (completions (on_delivery 0 true ACCEPTED None s)) = [(0, ACCEPTED)]
  /\ map (fun x => (c_rid x, c_outcome x, c_condition x))
       (completions (check_timeout 60%Z s))
     = [(0, RELEASED, Some (timeout_condition "broker"))]
  /\ map (fun x => (c_rid x, c_outcome x))
       (completions (on_link_closed None s)) = [(0, RELEASED); (1, RELEASED)]
  /\ completions (on_delivery 5 true ACCEPTED None s) = [].
Proof. vm_compute. repeat split. Qed.

End SenderFacts.

(* ===================================================================== *)
(** * More on the receiver side                                          *)
(* ===================================================================== *)
Module ReceiverFacts.

Import Receiver.

Local Unset Implicit Arguments.
Local Open Scope Z_scope.

(** Events other than a stop of the receiver. *)
Definition no_stop (ev : Event) : bool :=
  match ev with
  | EvOnStop _ => false
  | _ => true
  end.

(** A run that also collects what the passes of [receive] return: the
    batches, in the order they were returned. *)
Definition step_out (st : AsyncReceiver * list (list EventData)) (ev : Event)
  : AsyncReceiver * list (list EventData) :=
  match ev with
  | EvReceive count =>
      match receive count (fst st) with
      | (r', Batch b) => (r', snd st ++ [b])
      | (r', _) => (r', snd st)
      end
  | _ => (step (fst st) ev, snd st)
  end.

Definition run_out (evs : list Event) (r : AsyncReceiver)
  : AsyncReceiver * list (list EventData) :=
  fold_left step_out evs (r, []).

(** [Receiver.selector(default)], which [ReceiverHandler.on_start] passes to
    the link it creates: the filter after the receiver's offset once it has
    one, else the one the receiver was subscribed with. *)
Definition selector (r : AsyncReceiver) (default : option OffsetFilter.Selector)
  : option OffsetFilter.Selector :=
  match offset r with
  | Some o =>
      Some (OffsetFilter.selector
              {| OffsetFilter.value := OffsetFilter.Text o;
                 OffsetFilter.inclusive := false |})
  | None => default
  end.

(** ** Lemmas *)

Lemma check_flow_keeps (r : AsyncReceiver) :
  closed (_check_flow r) = closed r
  /\ waiter (_check_flow r) = waiter r
  /\ woken (_check_flow r) = woken r
  /\ offset (_check_flow r) = offset r
  /\ next_future (_check_flow r) = next_future r
  /\ (0 <= delivered r -> 0 <= delivered (_check_flow r)).
Proof.
  unfold _check_flow. destruct (link r); [|now repeat split].
  destruct (100 <=? delivered r); cbn; repeat split; lia.
Qed.

Lemma receive_keeps (count : Z) (r : AsyncReceiver) :
  closed (fst (receive count r)) = closed r
  /\ offset (fst (receive count r)) = offset r
  /\ (0 <= delivered r -> 0 <= delivered (fst (receive count r))).
Proof.
  unfold receive. destruct (closed r) eqn:C; [now repeat split|].
  rewrite drain_spec.
  destruct (_ ++ _); cbn; repeat split; try exact C; lia.
Qed.

Lemma step_closed (r : AsyncReceiver) (ev : Event) :
  no_stop ev = true -> closed (step r ev) = closed r.
Proof.
  destruct ev; cbn; try discriminate; intros _; try reflexivity.
  - unfold on_message. cbn. now destruct (check_flow_keeps
      {| messages := messages r ++ [ed]; link := link r; waiter := waiter r;
         prefetch := prefetch r; credit := credit r - 1;
         delivered := delivered r; closed := closed r;
         offset := Some (ed_offset ed); next_future := next_future r;
         flows := flows r; timers := timers r; woken := woken r |}) as [-> _].
  - unfold on_timer_task. cbn. now destruct (check_flow_keeps r) as [-> _].
  - now destruct (receive_keeps count r) as [-> _].
Qed.

Lemma run_closed (evs : list Event) :
  forall r, forallb no_stop evs = true -> closed (run evs r) = closed r.
Proof.
  unfold run. induction evs as [|ev evs IH]; intros r H; [reflexivity|].
  cbn in H. apply andb_prop in H as [H1 H2].
  cbn [fold_left]. rewrite (IH _ H2). now apply step_closed.
Qed.

Lemma step_delivered (r : AsyncReceiver) (ev : Event) :
  0 <= delivered r -> 0 <= delivered (step r ev).
Proof.
  intros H. destruct ev; cbn; try lia.
  - unfold on_message. cbn. now apply check_flow_keeps.
  - unfold on_timer_task. cbn. now apply check_flow_keeps.
  - now apply receive_keeps.
Qed.

Lemma run_delivered (evs : list Event) :
  forall r, 0 <= delivered r -> 0 <= delivered (run evs r).
Proof.
  unfold run. induction evs as [|ev evs IH]; intros r H; [exact H|].
  cbn [fold_left]. apply IH. now apply step_delivered.
Qed.

Lemma step_offset (r : AsyncReceiver) (ev : Event) :
  offset (step r ev)
  = fold_left (fun _ ed => Some (ed_offset ed)) (arrived ev) (offset r).
Proof.
  destruct ev; cbn; try reflexivity.
  - unfold on_message. cbn.
    now destruct (check_flow_keeps
      {| messages := messages r ++ [ed]; link := link r; waiter := waiter r;
         prefetch := prefetch r; credit := credit r - 1;
         delivered := delivered r; closed := closed r;
         offset := Some (ed_offset ed); next_future := next_future r;
         flows := flows r; timers := timers r; woken := woken r |})
      as (_ & _ & _ & -> & _).
  - unfold on_timer_task. cbn. now destruct (check_flow_keeps r) as (_ & _ & _ & -> & _).
  - now destruct (receive_keeps count r) as (_ & -> & _).
Qed.

Lemma run_offset (evs : list Event) :
  forall r,
    offset (run evs r)
    = fold_left (fun _ ed => Some (ed_offset ed)) (arrivals evs) (offset r).
Proof.
  unfold run. induction evs as [|ev evs IH]; intros r; [reflexivity|].
  cbn [fold_left]. rewrite IH, step_offset, arrivals_cons.
  now rewrite fold_left_app.
Qed.

Lemma step_out_hands_over (st : AsyncReceiver * list (list EventData))
  (ev : Event) :
  no_stop ev = true ->
  fst (step_out st ev) = step (fst st) ev
  /\ List.concat (snd (step_out st ev)) ++ messages (fst (step_out st ev))
     = List.concat (snd st) ++ messages (fst st) ++ arrived ev.
Proof.
  destruct st as [r out]. destruct ev; cbn [step_out fst snd step arrived];
    try discriminate; intros _.
  - split; [reflexivity|]. cbn. now rewrite app_nil_r.
  - split; [reflexivity|]. unfold on_message. cbn [messages].
    now rewrite messages_check_flow.
  - split; [reflexivity|]. unfold on_timer_task. cbn [messages].
    now rewrite messages_check_flow, app_nil_r.
  - destruct (receive count r) as [r' [b| |]] eqn:E; cbn [fst snd];
      (split; [reflexivity|]); rewrite app_nil_r.
    + apply receive_batch_split in E as [-> _].
      rewrite concat_app. cbn. now rewrite app_nil_r, <- app_assoc.
    + unfold receive in E. destruct (closed r); [now injection E as <-|].
      rewrite drain_spec in E. destruct (_ ++ _) in E; discriminate.
    + unfold receive in E. destruct (closed r); [discriminate|].
      rewrite drain_spec in E. cbn [app] in E.
      destruct (firstn (Z.to_nat count) (messages r)) eqn:F; [|discriminate].
      injection E as <-. cbn [messages].
      rewrite <- (firstn_skipn (Z.to_nat count) (messages r)) at 2.
      now rewrite F.
Qed.

Lemma run_out_hands_over (evs : list Event) :
  forall st,
    forallb no_stop evs = true ->
    fst (fold_left step_out evs st) = run evs (fst st)
    /\ List.concat (snd (fold_left step_out evs st))
       ++ messages (fst (fold_left step_out evs st))
       = List.concat (snd st) ++ messages (fst st) ++ arrivals evs.
Proof.
  induction evs as [|ev evs IH]; intros st H.
  - cbn. now rewrite app_nil_r.
  - cbn in H. apply andb_prop in H as [H1 H2].
    cbn [fold_left]. destruct (step_out_hands_over st ev H1) as [S1 S2].
    destruct (IH (step_out st ev) H2) as [I1 I2].
    split.
    + rewrite I1, S1. reflexivity.
    + rewrite I2, app_assoc, S2, arrivals_cons. now rewrite <- !app_assoc.
Qed.

(** ** What the receiver side guarantees *)

(** X7.  A [receive] on an open receiver with an empty buffer suspends on a
    new waiter; the next [on_message] wakes that waiter, and no other, and
    clears it; the pass that follows returns that one message and leaves
    the buffer empty. *)
Theorem suspended_receive_is_woken_by_next_message
  (r : AsyncReceiver) (ed : EventData) (count : Z) :
  closed r = false -> messages r = [] -> 0 < count ->
  let r1 := fst (receive count r) in
  let r2 := on_message ed r1 in
  snd (receive count r) = Suspended
  /\ waiter r1 = Some (next_future r)
  /\ waiter r2 = None
  /\ woken r2 = woken r ++ [next_future r]
  /\ snd (receive count r2) = Batch [ed]
  /\ messages (fst (receive count r2)) = [].
Proof.
  intros Hc Hm Hpos r1 r2.
  assert (R1 : receive count r
               = ({| messages := []; link := link r;
                     waiter := Some (next_future r);
                     prefetch := prefetch r; credit := credit r;
                     delivered := delivered r; closed := closed r;
                     offset := offset r; next_future := S (next_future r);
                     flows := flows r; timers := timers r; woken := woken r |},
                  Suspended)).
  { unfold receive. rewrite Hc, Hm. reflexivity. }
  subst r2 r1. rewrite R1. cbn [fst snd].
  split; [reflexivity|]. split; [reflexivity|].
  unfold on_message.
  match goal with |- context [_check_flow ?x] => set (r0 := x) end.
  destruct (check_flow_keeps r0) as (Kc & Kw & Kk & _).
  pose proof (messages_check_flow r0) as Km.
  cbn [waiter woken]. rewrite Kw, Kk. cbn [r0 waiter woken].
  split; [reflexivity|]. split; [reflexivity|].
  unfold receive. cbn [closed messages delivered]. rewrite Kc, Km.
  cbn [r0 closed messages]. rewrite Hc. cbn [app drain].
  apply Z.ltb_lt in Hpos. rewrite Hpos. cbn. split; reflexivity.
Qed.

Lemma suspended_receive_is_woken_by_next_message_witness :
  let ed := {| ed_offset := "10"; ed_body := 1 |} in
  let r := on_start 1 (init 300) in
  closed r = false /\ messages r = [] /\ 0 < 5
  /\ snd (receive 5 r) = Suspended
  /\ woken (on_message ed (fst (receive 5 r))) = [0%nat]
  /\ snd (receive 5 (on_message ed (fst (receive 5 r)))) = Batch [ed].
Proof.
  intros ed r.
  assert (Hc : closed r = false) by reflexivity.
  assert (Hm : messages r = []) by reflexivity.
  assert (Hp : 0 < 5) by lia.
  destruct (suspended_receive_is_woken_by_next_message r ed 5 Hc Hm Hp)
    as (A & _ & _ & B & C & _).
  repeat split; assumption.
Defined.

(** X8.  Once [on_stop] has closed the receiver, it stays closed through
    whatever follows short of another [on_stop], a restart of the link
    included, and every [receive] returns the closed marker. *)
Theorem closed_receiver_stays_closed
  (r : AsyncReceiver) (evs : list Event) (count : Z) :
  forallb no_stop evs = true ->
  closed (run evs (on_stop true r)) = true
  /\ receive count (run evs (on_stop true r))
     = (run evs (on_stop true r), Eof).
Proof.
  intros H. pose proof (run_closed evs (on_stop true r) H) as C.
  cbn [on_stop closed] in C. split; [exact C|].
  unfold receive. now rewrite C.
Qed.

Lemma closed_receiver_stays_closed_witness :
  let ed := {| ed_offset := "10"; ed_body := 1 |} in
  let evs := [EvOnStart 2; EvOnMessage ed; EvOnTimerTask; EvReceive 1] in
  forallb no_stop evs = true
  /\ closed (run evs (on_stop true (init 300))) = true
  /\ snd (receive 3 (run evs (on_stop true (init 300)))) = Eof.
Proof.
  intros ed evs.
  assert (H : forallb no_stop evs = true) by reflexivity.
  destruct (closed_receiver_stays_closed (init 300) evs 3 H) as [A B].
  split; [exact H|]. split; [exact A|]. now rewrite B.
Defined.

(** X9.  As long as the receiver is not stopped, what [on_message] put in
    the buffer is handed over once and in order: the batches returned so far,
    one after the other, followed by what is still buffered, are the messages
    buffered at the start followed by the arrivals. *)
Theorem messages_are_handed_over_once_in_order
  (r : AsyncReceiver) (evs : list Event) :
  forallb no_stop evs = true ->
  fst (run_out evs r) = run evs r
  /\ List.concat (snd (run_out evs r)) ++ messages (run evs r)
     = messages r ++ arrivals evs.
Proof.
  intros H. destruct (run_out_hands_over evs (r, []) H) as [A B].
  cbn [fst snd List.concat app] in A, B.
  unfold run_out. split; [exact A|]. rewrite <- A. exact B.
Qed.

Lemma messages_are_handed_over_once_in_order_witness :
  let a := {| ed_offset := "10"; ed_body := 1 |} in
  let b := {| ed_offset := "11"; ed_body := 2 |} in
  let c := {| ed_offset := "12"; ed_body := 3 |} in
  let evs := [EvOnStart 1; EvOnMessage a; EvOnMessage b; EvReceive 1;
              EvOnMessage c; EvReceive 1] in
  forallb no_stop evs = true
  /\ snd (run_out evs (init 300)) = [[a]; [b]]
  /\ List.concat (snd (run_out evs (init 300))) ++ messages (run evs (init 300))
     = [a; b; c].
Proof.
  intros a b c evs.
  assert (H : forallb no_stop evs = true) by reflexivity.
  destruct (messages_are_handed_over_once_in_order (init 300) evs H) as [_ B].
  split; [exact H|]. split; [reflexivity|]. exact B.
Defined.

(** X10.  Between a start of the link, from whatever state, and its next
    stop or restart, the consumption counter is never negative and the
    remaining credit never exceeds the prefetch plus the number of messages
    that were in the buffer at that start: the prefetch itself on a first
    start and after [on_stop]. *)
Theorem credit_is_bounded_since_start
  (r0 : AsyncReceiver) (it : nat) (evs : list Event) :
  forallb steady evs = true ->
  let r := run evs (on_start it r0) in
  0 <= delivered r
  /\ credit r <= prefetch r0 + Z.of_nat (List.length (messages r0))
  /\ (messages r0 = [] -> credit r <= prefetch r0).
Proof.
  intros H r.
  assert (D : 0 <= delivered r) by (apply run_delivered; cbn; lia).
  destruct (run_accounts evs (on_start it r0) H) as [B _].
  fold r in B. unfold balance in B. cbn in B.
  split; [exact D|]. split; [lia|]. intros E. rewrite E in B. cbn in B. lia.
Qed.

Lemma credit_is_bounded_since_start_witness :
  let ed := {| ed_offset := "10"; ed_body := 1 |} in
  let r0 := run (EvOnStart 1 :: repeat (EvOnMessage ed) 100) (init 300) in
  let evs := [EvReceive 100; EvOnMessage ed] in
  let r := run evs (on_start 2 r0) in
  forallb steady evs = true
  /\ credit r = 399
  /\ 0 <= delivered r
  /\ credit r <= 300 + 100.
Proof.
  intros ed r0 evs r.
  assert (H : forallb steady evs = true) by reflexivity.
  destruct (credit_is_bounded_since_start r0 2 evs H) as (A & B & _).
  split; [exact H|]. split; [reflexivity|]. split; [exact A|exact B].
Defined.

(** X11.  Once a message has arrived, the filter a restarted link is
    created with is the exclusive one after the offset of the last arrival,
    whatever the receiver was subscribed with, and also when [on_stop] has
    emptied the buffer in between; before any arrival it is the one the
    receiver was subscribed with. *)
Theorem restart_resumes_after_last_arrival
  (r : AsyncReceiver) (evs : list Event) (earlier : list EventData)
  (ed : EventData) (default : option OffsetFilter.Selector) :
  arrivals evs = earlier ++ [ed] ->
  selector (run evs r) default
  = Some {| OffsetFilter.expression :=
              ("amqp.annotation.x-opt-offset > '" ++ ed_offset ed ++ "'")%string |}
  /\ (forall p evs0,
        arrivals evs0 = [] -> selector (run evs0 (init p)) default = default).
Proof.
  intros H. split.
  - unfold selector. rewrite run_offset, H, fold_left_app. reflexivity.
  - intros p evs0 H0. unfold selector. rewrite run_offset, H0. reflexivity.
Qed.

Lemma restart_resumes_after_last_arrival_witness :
  let a := {| ed_offset := "10"; ed_body := 1 |} in
  let b := {| ed_offset := "11"; ed_body := 2 |} in
  let evs := [EvOnStart 1; EvOnMessage a; EvOnMessage b; EvOnStop false] in
  arrivals evs = [a] ++ [b]
  /\ messages (run evs (init 300)) = []
  /\ selector (run evs (init 300)) None
     = Some {| OffsetFilter.expression := "amqp.annotation.x-opt-offset > '11'" |}.
Proof.
  intros a b evs.
  assert (H : arrivals evs = [a] ++ [b]) by reflexivity.
  destruct (restart_resumes_after_last_arrival (init 300) evs [a] b None H)
    as [A _].
  split; [exact H|]. split; [reflexivity|]. exact A.
Defined.

End ReceiverFacts.

(* ===================================================================== *)
(** * More on the client                                                 *)
(* ===================================================================== *)
Module ClientFacts.

Import Client.

Local Unset Implicit Arguments.
Local Open Scope client_scope.

Section Run.

Variable start_client_async : Handle -> Handle.
Variable wait_for_client : Handle -> Handle * bool.

(** What [stop_async] leaves, from any state. *)
Lemma stop_async_result (s : EventHubClientAsync) :
  stop_async s
  = ({| clients := clients s; connection := false; auth := auth s;
        stopped := true;
        effects := effects s
                   ++ map (fun c => CloseClient (name c)) (clients s)
                   ++ (if connection s then [DestroyConnection] else []) |},
     Ok tt).
Proof.
  unfold stop_async, _close_clients_async, _close_connection_async, bind, get,
    ret, set_stopped, set_connection, emit.
  cbn. destruct (connection s); cbn; [now rewrite <- app_assoc|].
  now rewrite app_nil_r.
Qed.

(** [_handle_redirect] leaves the connection and the stopped flag alone, and
    when it raises it has called nothing. *)
Lemma handle_redirect_keeps (rs : list Redirect) (s : EventHubClientAsync) :
  connection (fst (_handle_redirect wait_for_client rs s)) = connection s
  /\ stopped (fst (_handle_redirect wait_for_client rs s)) = stopped s
  /\ (forall e, snd (_handle_redirect wait_for_client rs s) = Raise e ->
        effects (fst (_handle_redirect wait_for_client rs s)) = effects s).
Proof.
  unfold _handle_redirect, bind, get, ret, raise, set_clients, set_auth, emit.
  destruct (Nat.eqb _ _).
  - destruct rs as [|r0 rest]; [now repeat split|].
    destruct (forallb _ (r0 :: rest)); cbn; repeat split; discriminate.
  - destruct (forallb (is_redirected) (clients s)); [now repeat split|].
    cbn. destruct (timed_out _ _); [now repeat split|].
    destruct (reported_redirects _) as [|r0 rest]; [now repeat split|].
    destruct (forallb _ (r0 :: rest)); cbn; repeat split; discriminate.
Qed.

Lemma stop_then_raise (e : Exn) (s : EventHubClientAsync) :
  (stop_async ;; @raise (list Exn) e) s
  = (fst (stop_async s), Raise e).
Proof. unfold bind. now rewrite stop_async_result. Qed.

Lemma run_async_enters (self : EventHubClientAsync) :
  exists eff,
    run_async start_client_async wait_for_client self
    = run_started wait_for_client
        {| clients := map start_client_async (clients self);
           connection := true; auth := auth self;
           stopped := stopped self; effects := eff |}.
Proof.
  unfold run_async, _create_connection_async, bind, get, ret, set_clients,
    set_connection, emit.
  destruct self as [cs [|] a st eff]; cbn; eexists; reflexivity.
Qed.

(** ** What the client guarantees *)

(** X12.  Whatever makes [run_async] raise, what it raises is an
    [EventHubError], and by then the client is marked stopped, every client
    has been closed and the connection destroyed.  When it returns, it
    returns the errors of the clients that failed to start, in registration
    order, and the connection is up. *)
Theorem run_async_raises_only_after_teardown (self : EventHubClientAsync) :
  match run_async start_client_async wait_for_client self with
  | (self', Raise e) =>
      (exists msg, e = EventHubError msg)
      /\ connection self' = false
      /\ stopped self' = true
      /\ exists before,
           effects self'
           = before ++ map (fun c => CloseClient (name c)) (clients self')
             ++ [DestroyConnection]
  | (self', Ok l) =>
      l = reported_errors (map start_client_async (clients self))
      /\ connection self' = true
      /\ stopped self' = stopped self
  end.
Proof.
  destruct (run_async_enters self) as [eff ->].
  set (started := map start_client_async (clients self)).
  set (s0 := {| clients := started; connection := true; auth := auth self;
                stopped := stopped self; effects := eff |}).
  assert (T : forall (s1 : EventHubClientAsync) (e : Exn),
    connection s1 = true ->
    match (stop_async ;;
           @raise (list Exn)
             (EventHubError match e with
                            | EventHubError m => m
                            | _ => str e
                            end)) s1 with
    | (self', Raise e') =>
        (exists msg, e' = EventHubError msg)
        /\ connection self' = false /\ stopped self' = true
        /\ exists before,
             effects self'
             = before ++ map (fun c => CloseClient (name c)) (clients self')
               ++ [DestroyConnection]
    | (self', Ok l) =>
        l = reported_errors started
        /\ connection self' = true /\ stopped self' = stopped self
    end).
  { intros s1 e C. rewrite stop_then_raise, stop_async_result. cbn [fst].
    rewrite C. split; [eexists; reflexivity|]. split; [reflexivity|].
    split; [reflexivity|]. now exists (effects s1). }
  unfold run_started, try_except. unfold bind at 1. unfold get at 1.
  cbn [clients s0]. fold s0.
  destruct (reported_errors started) as [|e fl] eqn:Ef.
  - destruct (reported_redirects started) as [|r rs].
    + cbn. now repeat split.
    + unfold bind at 1.
      destruct (handle_redirect_keeps (r :: rs) s0) as (Kc & Ks & _).
      destruct (_handle_redirect wait_for_client (r :: rs) s0) as [s1 [[]|ex]].
      * cbn in *. now repeat split.
      * cbn [fst] in Kc. specialize (T s1 ex Kc). destruct ex; exact T.
  - destruct (Nat.eqb _ _).
    + unfold raise at 1. specialize (T s0 e eq_refl). destruct e; exact T.
    + cbn. now repeat split.
Qed.


(** X14.  When every registered client reports a redirect and all of them
    name the host of the first, [_handle_redirect] waits for nobody and goes
    through: authentication is made for the first one's address, the
    connection redirected to it, and every client opened again. *)
Theorem unanimous_redirect_is_followed
  (self : EventHubClientAsync) (r0 : Redirect) (rest : list Redirect) :
  List.length (r0 :: rest) = List.length (clients self) ->
  forallb (fun r => String.eqb (hostname r) (hostname r0)) rest = true ->
  _handle_redirect wait_for_client (r0 :: rest) self
  = ({| clients := clients self; connection := connection self;
        auth := address r0; stopped := stopped self;
        effects := effects self
                   ++ [CreateAuth (address r0); RedirectConnection r0]
                   ++ map (fun c => OpenClient (name c)) (clients self) |},
     Ok tt).
Proof.
  intros L F.
  unfold _handle_redirect, bind, get, ret, raise, set_clients, set_auth, emit.
  apply Nat.eqb_eq in L. rewrite L. cbn [forallb].
  rewrite String.eqb_refl, F. cbn. now rewrite <- !app_assoc.
Qed.

End Run.

Lemma unanimous_redirect_is_followed_witness :
  let ra := {| hostname := "a.example"; address := "amqps://a" |} in
  let c n := {| name := n; error := None; redirected := Some ra |} in
  let self := {| clients := [c 1; c 2]; connection := true;
                 auth := "amqps://origin"; stopped := false; effects := [] |} in
  List.length [ra; ra] = List.length (clients self)
  /\ forallb (fun r => String.eqb (hostname r) (hostname ra)) [ra] = true
  /\ effects (fst (_handle_redirect (fun c => (c, true)) [ra; ra] self))
     = [CreateAuth "amqps://a"; RedirectConnection ra; OpenClient 1; OpenClient 2].
Proof.
  intros ra c self.
  assert (L : List.length [ra; ra] = List.length (clients self)) by reflexivity.
  assert (F : forallb (fun r => String.eqb (hostname r) (hostname ra)) [ra] = true)
    by reflexivity.
  split; [exact L|]. split; [exact F|].
  now rewrite (unanimous_redirect_is_followed (fun c => (c, true)) self ra [ra] L F).
Defined.

End ClientFacts.

(* ===================================================================== *)
(** * More on the partition pump                                         *)
(* ===================================================================== *)
Module PumpFacts.

Local Unset Implicit Arguments.

(** ** Opening and cleaning up: [EventHubPartitionPump] *)

(** How one call of [open_clients_async] goes: through, or raising at the
    initial offset (nothing assigned yet), at the receive handler (the queue
    is assigned), or at the client (queue and handler are assigned). *)
Inductive Attempt :=
| Opens
| FailsAtOffset (err : string)
| FailsAtHandler (err : string)
| FailsAtClient (err : string).

(** [EventHubPartitionPump]: the status string and the four fields of
    [__init__], each [None] or set; [errors] logs the calls
    [processor.process_error_async(context, err)], [client_stops] counts
    [eh_client.stop()], [threads] the threads started on [eh_client.run]. *)
Record EventHubPartitionPump := {
  pump_status : string;
  msg_queue : option (list Pump.Message);
  eh_client : bool;
  partition_receiver : bool;
  partition_receive_handler : bool;
  errors : list string;
  client_stops : nat;
  threads : nat
}.

(** Modelled from the spec: [PartitionPump.set_pump_status] (the base class,
    [eventhubsprocessor/partition_pump.py], is not among the sources) makes
    the given string the pump's status. *)
Definition set_pump_status (st : string) (p : EventHubPartitionPump)
  : EventHubPartitionPump :=
  {| pump_status := st; msg_queue := msg_queue p; eh_client := eh_client p;
     partition_receiver := partition_receiver p;
     partition_receive_handler := partition_receive_handler p;
     errors := errors p; client_stops := client_stops p;
     threads := threads p |}.

(** [open_clients_async]: the assignments made up to the point where the
    attempt raises, and the error it raises, if any. *)
Definition open_clients_async (a : Attempt) (p : EventHubPartitionPump)
  : EventHubPartitionPump * option string :=
  let with_queue :=
    {| pump_status := pump_status p; msg_queue := Some [];
       eh_client := eh_client p; partition_receiver := partition_receiver p;
       partition_receive_handler := partition_receive_handler p;
       errors := errors p; client_stops := client_stops p;
       threads := threads p |} in
  let with_handler :=
    {| pump_status := pump_status p; msg_queue := Some [];
       eh_client := eh_client p; partition_receiver := partition_receiver p;
       partition_receive_handler := true;
       errors := errors p; client_stops := client_stops p;
       threads := threads p |} in
  match a with
  | FailsAtOffset err => (p, Some err)
  | FailsAtHandler err => (with_queue, Some err)
  | FailsAtClient err => (with_handler, Some err)
  | Opens =>
      ({| pump_status := pump_status p; msg_queue := Some [];
          eh_client := true; partition_receiver := true;
          partition_receive_handler := true;
          errors := errors p; client_stops := client_stops p;
          threads := threads p |}, None)
  end.

(** [clean_up_clients_async]: the four fields are reset, and the client
    stopped, only when both the receiver and the client are set. *)
Definition clean_up_clients_async (p : EventHubPartitionPump)
  : EventHubPartitionPump :=
  if partition_receiver p then
    if eh_client p then
      {| pump_status := pump_status p; msg_queue := None;
         eh_client := false; partition_receiver := false;
         partition_receive_handler := false;
         errors := errors p; client_stops := S (client_stops p);
         threads := threads p |}
    else p
  else p.

(** The retry loop of [on_open_async]: [fuel] is what is left of the five
    tries, [k] the tries made; [attempt k] tells how the try after [k] tries
    goes.  It gives the pump, whether it opened, the last error and the
    number of tries. *)
Fixpoint open_loop (attempt : nat -> Attempt) (fuel k : nat)
  (p : EventHubPartitionPump) (last_exception : option string)
  : EventHubPartitionPump * bool * option string * nat :=
  match fuel with
  | 0 => (p, false, last_exception, k)
  | S fuel' =>
      match open_clients_async (attempt k) p with
      | (p', None) => (p', true, last_exception, S k)
      | (p', Some err) => open_loop attempt fuel' (S k) p' (Some err)
      end
  end.

(** [on_open_async], up to its entering [partition_receiver.run()] when the
    pump got to run: the pump, whether the consume loop is entered, and the
    number of calls of [open_clients_async]. *)
Definition on_open_async (attempt : nat -> Attempt) (p : EventHubPartitionPump)
  : EventHubPartitionPump * bool * nat :=
  let '(p1, opened_ok, last_exception, tries) :=
    open_loop attempt 5 0 p None in
  let p2 :=
    if opened_ok then p1
    else
      set_pump_status "OpenFailed"
        {| pump_status := pump_status p1; msg_queue := msg_queue p1;
           eh_client := eh_client p1;
           partition_receiver := partition_receiver p1;
           partition_receive_handler := partition_receive_handler p1;
           errors := errors p1 ++ match last_exception with
                                  | Some err => [err]
                                  | None => []
                                  end;
           client_stops := client_stops p1; threads := threads p1 |} in
  if String.eqb (pump_status p2) "Opening" then
    let p3 := set_pump_status "Running" p2 in
    ({| pump_status := pump_status p3; msg_queue := msg_queue p3;
        eh_client := eh_client p3;
        partition_receiver := partition_receiver p3;
        partition_receive_handler := partition_receive_handler p3;
        errors := errors p3; client_stops := client_stops p3;
        threads := S (threads p3) |}, true, tries)
  else if String.eqb (pump_status p2) "OpenFailed" then
    (set_pump_status "Closed"
       (clean_up_clients_async (set_pump_status "Closing" p2)), false, tries)
  else (p2, false, tries).

(** The error an attempt raises, if it does. *)
Definition failure (a : Attempt) : option string :=
  match a with
  | Opens => None
  | FailsAtOffset err | FailsAtHandler err | FailsAtClient err => Some err
  end.

(** ** The consume loop while the pump runs *)

(** The messages the client's thread delivers among the events. *)
Fixpoint delivered (evs : list Pump.Event) : list Pump.Message :=
  match evs with
  | [] => []
  | Pump.Deliver m :: evs' => m :: delivered evs'
  | Pump.Move :: evs' => delivered evs'
  end.

(** Whether an attempt raises. *)
Definition fails (a : Attempt) : bool :=
  match failure a with Some _ => true | None => false end.

(** What the tries leave alone: everything but the queue and, on a try that
    gets that far, the receive handler. *)
Definition same_but_queue (p p' : EventHubPartitionPump) : Prop :=
  pump_status p' = pump_status p
  /\ eh_client p' = eh_client p
  /\ partition_receiver p' = partition_receiver p
  /\ errors p' = errors p
  /\ client_stops p' = client_stops p
  /\ threads p' = threads p.

(** ** Lemmas on the retry loop *)

Lemma open_fails_keeps (a : Attempt) (p : EventHubPartitionPump) :
  fails a = true ->
  snd (open_clients_async a p) = failure a
  /\ same_but_queue p (fst (open_clients_async a p)).
Proof. destruct a; cbn; try discriminate; intros _; now repeat split. Qed.

Lemma same_but_queue_trans (p q r : EventHubPartitionPump) :
  same_but_queue p q -> same_but_queue q r -> same_but_queue p r.
Proof.
  unfold same_but_queue.
  intros (A1 & A2 & A3 & A4 & A5 & A6) (B1 & B2 & B3 & B4 & B5 & B6).
  repeat split; congruence.
Qed.

Lemma open_loop_all_fail (attempt : nat -> Attempt) (fuel : nat) :
  forall k p last,
    (forall j, k <= j < k + fuel -> fails (attempt j) = true) ->
    exists p',
      open_loop attempt fuel k p last
      = (p', false,
         match fuel with
         | 0 => last
         | S _ => failure (attempt (k + fuel - 1))
         end, k + fuel)
      /\ same_but_queue p p'.
Proof.
  induction fuel as [|fuel IH]; intros k p last H.
  - exists p. cbn. rewrite Nat.add_0_r. now repeat split.
  - cbn [open_loop].
    destruct (open_fails_keeps (attempt k) p (H k ltac:(lia))) as [E K].
    destruct (open_clients_async (attempt k) p) as [p1 r]. cbn [fst snd] in *.
    assert (F : fails (attempt k) = true) by (apply H; lia).
    unfold fails in F. rewrite <- E in F. destruct r as [err|]; [|discriminate].
    destruct (IH (S k) p1 (Some err)) as (p' & L & K').
    { intros j Hj. apply H. lia. }
    exists p'. rewrite L. split; [|exact (same_but_queue_trans _ _ _ K K')].
    replace (S k + fuel) with (k + S fuel) by lia.
    destruct fuel as [|fuel'].
    + replace (k + 1 - 1) with k by lia. now rewrite E.
    + replace (S k + S fuel' - 1) with (k + S (S fuel') - 1) by lia.
      reflexivity.
Qed.

Lemma open_loop_opens (attempt : nat -> Attempt) (n : nat) :
  forall fuel k p last,
    n < fuel ->
    (forall j, k <= j < k + n -> fails (attempt j) = true) ->
    attempt (k + n) = Opens ->
    exists p1 last',
      open_loop attempt fuel k p last = (p1, true, last', S (k + n))
      /\ msg_queue p1 = Some [] /\ eh_client p1 = true
      /\ partition_receiver p1 = true /\ partition_receive_handler p1 = true
      /\ pump_status p1 = pump_status p /\ errors p1 = errors p
      /\ client_stops p1 = client_stops p /\ threads p1 = threads p.
Proof.
  induction n as [|n IH]; intros fuel k p last Hf H O.
  - destruct fuel as [|fuel]; [lia|]. cbn [open_loop].
    rewrite Nat.add_0_r in O. rewrite O. cbn.
    eexists. eexists. rewrite Nat.add_0_r. now repeat split.
  - destruct fuel as [|fuel]; [lia|]. cbn [open_loop].
    destruct (open_fails_keeps (attempt k) p (H k ltac:(lia))) as [E K].
    destruct (open_clients_async (attempt k) p) as [p0 r]. cbn [fst snd] in *.
    assert (F : fails (attempt k) = true) by (apply H; lia).
    unfold fails in F. rewrite <- E in F. destruct r as [err|]; [|discriminate].
    destruct (IH fuel (S k) p0 (Some err)) as (p1 & last' & L & R).
    { lia. } { intros j Hj. apply H. lia. }
    { replace (S k + n) with (k + S n) by lia. exact O. }
    exists p1, last'. replace (S (k + S n)) with (S (S k + n)) by lia.
    split; [exact L|].
    destruct K as (K1 & K2 & K3 & K4 & K5 & K6).
    destruct R as (R1 & R2 & R3 & R4 & R5 & R6 & R7 & R8).
    repeat split; congruence.
Qed.

Lemma fails_upto (attempt : nat -> Attempt) (n : nat) :
  forallb (fun k => fails (attempt k)) (seq 0 n) = true ->
  forall j, 0 <= j < 0 + n -> fails (attempt j) = true.
Proof.
  intros H j Hj. rewrite forallb_forall in H. apply H. apply in_seq. lia.
Qed.

Lemma exec_running (evs : list Pump.Event) :
  forall p q l,
    Pump.is_closing p = false ->
    String.eqb (Pump.pump_status p) "Errored" = false ->
    Pump.msg_queue p = Some q ->
    l = Pump.AtTest \/ l = Pump.InGet ->
    let '(p', l') := Pump.exec evs (p, l) in
    (l' = Pump.AtTest \/ l' = Pump.InGet)
    /\ Pump.pump_status p' = Pump.pump_status p
    /\ exists q',
         Pump.msg_queue p' = Some q'
         /\ List.concat (Pump.processed p') ++ q'
            = List.concat (Pump.processed p) ++ q ++ delivered evs.
Proof.
  induction evs as [|ev evs IH]; intros p q l Hc He Hq Hl.
  - cbn. repeat split; [exact Hl|]. exists q. now rewrite app_nil_r.
  - assert (T : forall m q0,
              Pump.msg_queue p = Some (m :: q0) -> q = m :: q0 ->
              let '(p', l') := Pump.exec evs (Pump.take m q0 p, Pump.AtTest) in
              (l' = Pump.AtTest \/ l' = Pump.InGet)
              /\ Pump.pump_status p' = Pump.pump_status p
              /\ exists q',
                   Pump.msg_queue p' = Some q'
                   /\ List.concat (Pump.processed p') ++ q'
                      = List.concat (Pump.processed p) ++ q ++ delivered evs).
    { intros m q0 _ ->.
      specialize (IH (Pump.take m q0 p) q0 Pump.AtTest Hc He eq_refl
                    (or_introl eq_refl)).
      destruct (Pump.exec evs (Pump.take m q0 p, Pump.AtTest)) as [p' l'].
      destruct IH as (L & S1 & q' & Q & C). repeat split; [exact L|exact S1|].
      exists q'. split; [exact Q|]. rewrite C. cbn [Pump.take
        Pump.process_events_async Pump.processed].
      rewrite concat_app. cbn. now rewrite <- !app_assoc. }
    destruct ev as [|m].
    + change (Pump.exec (Pump.Move :: evs) (p, l))
        with (Pump.exec evs (Pump.run_move (p, l))).
      cbn [delivered]. unfold Pump.run_move.
      destruct Hl as [->| ->].
      * rewrite Hc. cbn [negb orb]. rewrite Hq.
        destruct q as [|m q0]; [|exact (T m q0 Hq eq_refl)].
        exact (IH p [] Pump.InGet Hc He Hq (or_intror eq_refl)).
      * rewrite Hq.
        destruct q as [|m q0]; [|exact (T m q0 Hq eq_refl)].
        exact (IH p [] Pump.InGet Hc He Hq (or_intror eq_refl)).
    + change (Pump.exec (Pump.Deliver m :: evs) (p, l))
        with (Pump.exec evs (Pump.on_event_data m p, l)).
      cbn [delivered].
      assert (D : Pump.on_event_data m p
                  = {| Pump.pump_status := Pump.pump_status p;
                       Pump.msg_queue := Some (q ++ [m]);
                       Pump.last_offset := Pump.offset m;
                       Pump.last_sn := Pump.sequence_number m;
                       Pump.processed := Pump.processed p;
                       Pump.client_stops := Pump.client_stops p |}).
      { unfold Pump.on_event_data. rewrite He, Hq. reflexivity. }
      rewrite D.
      match goal with
      | |- context [Pump.exec evs (?p1, l)] =>
          specialize (IH p1 (q ++ [m]) l Hc He eq_refl Hl);
          destruct (Pump.exec evs (p1, l)) as [p' l']
      end.
      destruct IH as (L & S1 & q' & Q & C). repeat split; [exact L|exact S1|].
      exists q'. split; [exact Q|]. rewrite C. cbn [Pump.processed].
      now rewrite <- !app_assoc.
Qed.

(** ** What the pump guarantees *)

(** X15.  When all five tries of [open_clients_async] raise, [on_open_async]
    makes exactly five, reports the error of the fifth, and no other, to the
    processor, starts no thread, does not enter the consume loop and leaves
    the pump [Closed].  On a pump whose receiver was not set the clean-up on
    the way resets nothing and stops no client: the queue is the one the
    tries left. *)
Theorem open_gives_up_after_five_failures
  (attempt : nat -> Attempt) (p : EventHubPartitionPump) :
  pump_status p = "Opening"%string ->
  partition_receiver p = false ->
  forallb (fun k => fails (attempt k)) (seq 0 5) = true ->
  let '(p', entered, tries) := on_open_async attempt p in
  entered = false /\ tries = 5
  /\ pump_status p' = "Closed"%string
  /\ errors p' = errors p ++ match failure (attempt 4) with
                             | Some err => [err]
                             | None => []
                             end
  /\ threads p' = threads p
  /\ client_stops p' = client_stops p
  /\ msg_queue p'
     = msg_queue (fst (fst (fst (open_loop attempt 5 0 p None)))).
Proof.
  intros Hs Hr Hf.
  destruct (open_loop_all_fail attempt 5 0 p None (fails_upto attempt 5 Hf))
    as (p1 & L & K1 & K2 & K3 & K4 & K5 & K6).
  unfold on_open_async. rewrite L. cbn [fst].
  cbn [Nat.add Nat.sub].
  cbn [set_pump_status pump_status String.eqb Ascii.eqb Bool.eqb].
  unfold clean_up_clients_async. cbn [set_pump_status partition_receiver].
  rewrite K3, Hr. cbn. repeat split; congruence.
Qed.

Lemma open_gives_up_after_five_failures_witness :
  let p := {| pump_status := "Opening"; msg_queue := None; eh_client := false;
              partition_receiver := false; partition_receive_handler := false;
              errors := []; client_stops := 0; threads := 0 |} in
  let attempt k := match k with
                   | 4 => FailsAtOffset "last"
                   | _ => FailsAtClient "bad connection string"
                   end in
  pump_status p = "Opening"%string
  /\ partition_receiver p = false
  /\ forallb (fun k => fails (attempt k)) (seq 0 5) = true
  /\ on_open_async attempt p
     = ({| pump_status := "Closed"; msg_queue := Some []; eh_client := false;
           partition_receiver := false; partition_receive_handler := true;
           errors := ["last"%string]; client_stops := 0; threads := 0 |},
        false, 5)
  /\ snd (on_open_async attempt p) = 5.
Proof.
  intros p attempt.
  assert (Hs : pump_status p = "Opening"%string) by reflexivity.
  assert (Hr : partition_receiver p = false) by reflexivity.
  assert (Hf : forallb (fun k => fails (attempt k)) (seq 0 5) = true)
    by reflexivity.
  pose proof (open_gives_up_after_five_failures attempt p Hs Hr Hf) as H.
  split; [exact Hs|]. split; [exact Hr|]. split; [exact Hf|].
  split; [reflexivity|].
  vm_compute in H. destruct H as (_ & A & _). exact A.
Defined.

(** X16.  When the try after [k < 5] failed ones goes through,
    [on_open_async] makes exactly [k + 1] tries, reports no error, sets the
    pump [Running] with a fresh, empty queue and client, handler and receiver
    set, starts one thread on the client, and enters the consume loop. *)
Theorem open_runs_after_first_success
  (attempt : nat -> Attempt) (p : EventHubPartitionPump) (k : nat) :
  pump_status p = "Opening"%string ->
  k < 5 ->
  forallb (fun j => fails (attempt j)) (seq 0 k) = true ->
  attempt k = Opens ->
  on_open_async attempt p
  = ({| pump_status := "Running"; msg_queue := Some []; eh_client := true;
        partition_receiver := true; partition_receive_handler := true;
        errors := errors p; client_stops := client_stops p;
        threads := S (threads p) |}, true, S k).
Proof.
  intros Hs Hk Hf Ho.
  destruct (open_loop_opens attempt k 5 0 p None Hk (fails_upto attempt k Hf) Ho)
    as (p1 & last' & L & Q & C & R & Hh & S1 & E & Cs & T).
  unfold on_open_async. rewrite L. cbn [Nat.add].
  rewrite S1, Hs. cbn. now rewrite Q, C, R, Hh, E, Cs, T.
Qed.

Lemma open_runs_after_first_success_witness :
  let p := {| pump_status := "Opening"; msg_queue := None; eh_client := false;
              partition_receiver := false; partition_receive_handler := false;
              errors := []; client_stops := 0; threads := 0 |} in
  let attempt k := match k with
                   | 0 | 1 => FailsAtOffset "lease not ready"
                   | _ => Opens
                   end in
  pump_status p = "Opening"%string /\ 2 < 5
  /\ forallb (fun j => fails (attempt j)) (seq 0 2) = true
  /\ attempt 2 = Opens
  /\ snd (on_open_async attempt p) = 3
  /\ pump_status (fst (fst (on_open_async attempt p))) = "Running"%string.
Proof.
  intros p attempt.
  assert (Hs : pump_status p = "Opening"%string) by reflexivity.
  assert (Hk : 2 < 5) by lia.
  assert (Hf : forallb (fun j => fails (attempt j)) (seq 0 2) = true)
    by reflexivity.
  assert (Ho : attempt 2 = Opens) by reflexivity.
  rewrite (open_runs_after_first_success attempt p 2 Hs Hk Hf Ho).
  repeat split; assumption.
Defined.

(** X17.  [clean_up_clients_async] is idempotent and stops the client at
    most once: it either resets queue, client, handler and receiver
    together, stopping the client, or, when the receiver or the client is
    not set, changes nothing; done again, it changes nothing. *)
Theorem clean_up_is_idempotent (p : EventHubPartitionPump) :
  clean_up_clients_async (clean_up_clients_async p) = clean_up_clients_async p
  /\ (clean_up_clients_async p = p
      \/ (partition_receiver p = true /\ eh_client p = true
          /\ msg_queue (clean_up_clients_async p) = None
          /\ eh_client (clean_up_clients_async p) = false
          /\ partition_receiver (clean_up_clients_async p) = false
          /\ partition_receive_handler (clean_up_clients_async p) = false
          /\ client_stops (clean_up_clients_async p) = S (client_stops p))).
Proof.
  unfold clean_up_clients_async.
  destruct (partition_receiver p) eqn:R; [|rewrite R; now split; [|left]].
  destruct (eh_client p) eqn:C; [|rewrite R, C; now split; [|left]].
  cbn. split; [reflexivity|right; now repeat split].
Qed.

(** X18.  While the pump is neither closing nor errored, the consume loop
    and the client's thread, however interleaved, lose nothing, repeat
    nothing and keep the order: what has been forwarded to the processor,
    followed by what is queued, is what was forwarded and queued before
    followed by the messages delivered since; and the loop does not leave. *)
Theorem running_pump_forwards_in_order
  (p : Pump.PumpState) (q : list Pump.Message) (evs : list Pump.Event) :
  Pump.is_closing p = false ->
  String.eqb (Pump.pump_status p) "Errored" = false ->
  Pump.msg_queue p = Some q ->
  let '(p', l') := Pump.exec evs (p, Pump.AtTest) in
  (l' = Pump.AtTest \/ l' = Pump.InGet)
  /\ Pump.pump_status p' = Pump.pump_status p
  /\ exists q',
       Pump.msg_queue p' = Some q'
       /\ List.concat (Pump.processed p') ++ q'
          = List.concat (Pump.processed p) ++ q ++ delivered evs.
Proof.
  intros Hc He Hq.
  exact (exec_running evs p q Pump.AtTest Hc He Hq (or_introl eq_refl)).
Qed.

Lemma running_pump_forwards_in_order_witness :
  let m1 := {| Pump.offset := "10"; Pump.sequence_number := 1%Z; Pump.body := 1 |} in
  let m2 := {| Pump.offset := "11"; Pump.sequence_number := 2%Z; Pump.body := 2 |} in
  let m3 := {| Pump.offset := "12"; Pump.sequence_number := 3%Z; Pump.body := 3 |} in
  let p := {| Pump.pump_status := "Running"; Pump.msg_queue := Some [m1];
              Pump.last_offset := "10"; Pump.last_sn := 1%Z;
              Pump.processed := []; Pump.client_stops := 0 |} in
  let evs := [Pump.Move; Pump.Move; Pump.Deliver m2; Pump.Deliver m3;
              Pump.Move] in
  Pump.is_closing p = false
  /\ String.eqb (Pump.pump_status p) "Errored" = false
  /\ Pump.msg_queue p = Some [m1]
  /\ Pump.processed (fst (Pump.exec evs (p, Pump.AtTest))) = [[m1]; [m2]]
  /\ Pump.msg_queue (fst (Pump.exec evs (p, Pump.AtTest))) = Some [m3]
  /\ (snd (Pump.exec evs (p, Pump.AtTest)) = Pump.AtTest
      \/ snd (Pump.exec evs (p, Pump.AtTest)) = Pump.InGet).
Proof.
  intros m1 m2 m3 p evs.
  assert (Hc : Pump.is_closing p = false) by reflexivity.
  assert (He : String.eqb (Pump.pump_status p) "Errored" = false) by reflexivity.
  assert (Hq : Pump.msg_queue p = Some [m1]) by reflexivity.
  pose proof (running_pump_forwards_in_order p [m1] evs Hc He Hq) as H.
  split; [exact Hc|]. split; [exact He|]. split; [exact Hq|].
  split; [reflexivity|]. split; [reflexivity|].
  vm_compute in H. destruct H as (A & _). exact A.
Defined.

End PumpFacts.

(* ===================================================================== *)
(** * [EventData]: the partition key and the service's annotations       *)
(* ===================================================================== *)
Module EventDataFacts.

Local Unset Implicit Arguments.
Local Open Scope string_scope.

(** What the accessors can raise: [KeyError] for a key a dict lacks, and
    [TypeError] for indexing or assigning into [None]. *)
Inductive Exn :=
| KeyError (key : string)
| TypeError.

Inductive Result (A : Type) :=
| Ok (a : A)
| Raise (e : Exn).
Arguments Ok {A} a.
Arguments Raise {A} e.

(** [message.annotations]: [None] or a dict from symbols to values, in
    insertion order. *)
Definition Dict := list (string * string).

(** [EventData]: the message's annotations and body, and [_local], true for
    an event made by the caller and false for a received one. *)
Record EventData := {
  annotations : option Dict;
  body : string;
  _local : bool
}.

Definition PROP_SEQ_NUMBER : string := "x-opt-sequence-number".
Definition PROP_OFFSET : string := "x-opt-offset".
Definition PROP_PARTITION_KEY : string := "x-opt-partition-key".

(** [EventData(body)]: a new message has no annotations. *)
Definition new (b : string) : EventData :=
  {| annotations := None; body := b; _local := true |}.

(** [EventData.create(message)]. *)
Definition create (ann : option Dict) (b : string) : EventData :=
  {| annotations := ann; body := b; _local := false |}.

(** [d.get(k)], [None] when the key is missing. *)
Fixpoint lookup (k : string) (d : Dict) : option string :=
  match d with
  | [] => None
  | (k', v) :: d' => if String.eqb k' k then Some v else lookup k d'
  end.

(** [d[k] = v]. *)
Fixpoint dict_set (k v : string) (d : Dict) : Dict :=
  match d with
  | [] => [(k, v)]
  | (k', v') :: d' =>
      if String.eqb k' k then (k, v) :: d' else (k', v') :: dict_set k v d'
  end.

(** [message.annotations[key]]. *)
Definition annotation (key : string) (e : EventData) : Result string :=
  match annotations e with
  | None => Raise TypeError
  | Some d =>
      match lookup key d with
      | Some v => Ok v
      | None => Raise (KeyError key)
      end
  end.

(** The properties [sequence_number] and [offset]. *)
Definition sequence_number (e : EventData) : Result string :=
  annotation PROP_SEQ_NUMBER e.
Definition offset (e : EventData) : Result string :=
  annotation PROP_OFFSET e.

(** [_get_partition_key]: [None] when the annotations are [None] or an empty
    dict, else the value under the key. *)
Definition _get_partition_key (e : EventData) : Result (option string) :=
  match annotations e with
  | None | Some [] => Ok None
  | Some d =>
      match lookup PROP_PARTITION_KEY d with
      | Some v => Ok (Some v)
      | None => Raise (KeyError PROP_PARTITION_KEY)
      end
  end.

(** [_set_partition_key(value)]: a local event without annotations gets an
    empty dict first; then the value is stored under the key. *)
Definition _set_partition_key (v : string) (e : EventData) : Result EventData :=
  let ann :=
    match annotations e with
    | None => if _local e then Some [] else None
    | Some d => Some d
    end in
  match ann with
  | None => Raise TypeError
  | Some d =>
      Ok {| annotations := Some (dict_set PROP_PARTITION_KEY v d);
            body := body e; _local := _local e |}
  end.

(** The annotation under [k], if the event has it. *)
Definition annotated (k : string) (e : EventData) : option string :=
  match annotations e with
  | Some d => lookup k d
  | None => None
  end.

(** ** Lemmas on the dict *)

Lemma lookup_set_same (k v : string) (d : Dict) :
  lookup k (dict_set k v d) = Some v.
Proof.
  induction d as [|[k' v'] d IH]; cbn; [now rewrite String.eqb_refl|].
  destruct (String.eqb k' k) eqn:E; cbn; [now rewrite String.eqb_refl|].
  now rewrite E.
Qed.

Lemma lookup_set_other (k k0 v : string) (d : Dict) :
  String.eqb k k0 = false ->
  lookup k0 (dict_set k v d) = lookup k0 d.
Proof.
  intros H. induction d as [|[k' v'] d IH]; cbn; [now rewrite H|].
  destruct (String.eqb k' k) eqn:E; cbn.
  - apply String.eqb_eq in E. subst k'. now rewrite H.
  - now rewrite IH.
Qed.

Lemma dict_set_nonempty (k v : string) (d : Dict) : dict_set k v d <> [].
Proof. destruct d as [|[k' v'] d]; cbn; [|destruct (String.eqb k' k)]; discriminate. Qed.

(** ** What the accessors guarantee *)

(** X19.  On an event made by the caller, or on any event that has
    annotations, setting the partition key and reading it back gives the
    value set; the body, the other annotations and the kind of the event are
    as before; and a second value replaces the first. *)
Theorem partition_key_round_trip (v w : string) (e : EventData) :
  _local e || match annotations e with Some _ => true | None => false end
  = true ->
  exists e' e'',
    _set_partition_key v e = Ok e'
    /\ _get_partition_key e' = Ok (Some v)
    /\ body e' = body e /\ _local e' = _local e
    /\ (forall k, String.eqb PROP_PARTITION_KEY k = false ->
          annotated k e' = annotated k e)
    /\ _set_partition_key w e' = Ok e''
    /\ _get_partition_key e'' = Ok (Some w).
Proof.
  intros H.
  assert (G : forall x d,
    _get_partition_key
      {| annotations := Some (dict_set PROP_PARTITION_KEY x d);
         body := body e; _local := _local e |} = Ok (Some x)).
  { intros x d. unfold _get_partition_key. cbn [annotations].
    pose proof (dict_set_nonempty PROP_PARTITION_KEY x d) as N.
    pose proof (lookup_set_same PROP_PARTITION_KEY x d) as L.
    destruct (dict_set PROP_PARTITION_KEY x d); [now elim N|].
    now rewrite L. }
  unfold _set_partition_key, annotated.
  destruct (annotations e) as [d|] eqn:A.
  - eexists. eexists. split; [reflexivity|]. split; [apply G|].
    cbn [annotations body _local].
    split; [reflexivity|]. split; [reflexivity|].
    split; [intros k Hk; now apply lookup_set_other|].
    split; [reflexivity|apply G].
  - rewrite orb_false_r in H. rewrite H.
    eexists. eexists. split; [reflexivity|]. split; [apply G|].
    cbn [annotations body _local].
    split; [reflexivity|]. split; [reflexivity|].
    split; [intros k Hk; exact (lookup_set_other _ k v [] Hk)|].
    split; [reflexivity|apply G].
Qed.

Lemma partition_key_round_trip_witness :
  let e := create (Some [("x-opt-offset", "42")]) "payload" in
  _local e || match annotations e with Some _ => true | None => false end = true
  /\ exists e' e'',
       _set_partition_key "k1" e = Ok e'
       /\ _get_partition_key e' = Ok (Some "k1")
       /\ body e' = body e /\ _local e' = _local e
       /\ (forall k, String.eqb PROP_PARTITION_KEY k = false ->
             annotated k e' = annotated k e)
       /\ _set_partition_key "k2" e' = Ok e''
       /\ _get_partition_key e'' = Ok (Some "k2").
Proof.
  intros e.
  assert (H : _local e || match annotations e with
                          | Some _ => true
                          | None => false
                          end = true) by reflexivity.
  split; [exact H|]. exact (partition_key_round_trip "k1" "k2" e H).
Defined.

(** X20.  The edges of the accessors: a new event has no partition key; a
    received event without annotations has none either, and setting one on
    it raises, as reading its offset or sequence number does; reading the
    partition key of an event whose annotations are not empty and lack the
    key raises [KeyError], where an empty dict gives [None]. *)
Theorem partition_key_edges (b v : string) (k0 v0 : string) (d : Dict) :
  _get_partition_key (new b) = Ok None
  /\ _get_partition_key (create None b) = Ok None
  /\ _get_partition_key (create (Some []) b) = Ok None
  /\ _set_partition_key v (create None b) = Raise TypeError
  /\ offset (create None b) = Raise TypeError
  /\ sequence_number (create None b) = Raise TypeError
  /\ match lookup PROP_PARTITION_KEY ((k0, v0) :: d) with
     | None =>
         _get_partition_key (create (Some ((k0, v0) :: d)) b)
         = Raise (KeyError PROP_PARTITION_KEY)
     | Some x =>
         _get_partition_key (create (Some ((k0, v0) :: d)) b) = Ok (Some x)
     end.
Proof.
  repeat split.
  unfold _get_partition_key. cbn [annotations create].
  destruct (lookup PROP_PARTITION_KEY ((k0, v0) :: d)); reflexivity.
Qed.

End EventDataFacts.
